(** * seqmut: a sequence lock ([pkg/seqmut/rwmutex.go])

    A shallow embedding of the [RWMutex] of package [seqmut] and of its four
    methods [RStamp], [Ok], [Lock] and [Unlock], followed by the properties
    the specification states about them.

    The memory of a program is the lock itself (the embedded [sync.Mutex] and
    the [uint64] sequence) together with a store of [Stamp] cells, since the
    methods hand out and mutate stamps through [*Stamp] pointers.  Methods are
    computations in a small state monad whose outcomes also record a goroutine
    that parks for ever and a run-time error. *)

From Stdlib Require Import ZArith Lia Bool.
From stdpp Require Import base list.

Local Open Scope Z_scope.

(** ** Data *)

(** [type Stamp uint64]: a 64-bit unsigned integer, kept as a [Z] whose
    arithmetic wraps at [2^64]. *)
Abbreviation Stamp := Z (only parsing).

Definition two64 : Z := 2 ^ 64.

Definition MaxUint64 : Z := two64 - 1.

Definition wrap64 (z : Z) : Z := z mod two64.

Definition is_uint64 (z : Z) : Prop := 0 <= z < two64.

(** [sync.Mutex] of the Go standard library.  It has no owner: it is either
    locked or not. *)
Inductive Mutex : Type :=
| Unlocked
| Locked.

#[global] Instance Mutex_eq_dec : EqDecision Mutex.
Proof. solve_decision. Defined.

Definition is_locked (m : Mutex) : bool :=
  match m with
  | Locked => true
  | Unlocked => false
  end.

(** [type RWMutex struct { mut sync.Mutex; sequence uint64 }] *)
Record RWMutex : Type := mkRWMutex {
  mut : Mutex;
  sequence : Z
}.

(** A [*Stamp]: [nil], or the address of a cell of the stamp store. *)
Inductive StampPtr : Type :=
| Nil
| Ref (l : nat).

#[global] Instance StampPtr_eq_dec : EqDecision StampPtr.
Proof. solve_decision. Defined.

(** The memory a program works on: the receiver [rw] and the stamps
    allocated so far, a cell per [&stamp] that escaped from [RStamp]. *)
Record Memory : Type := mkMemory {
  rw : RWMutex;
  stamps : list Stamp
}.

Definition memory_at (m : Mutex) (s : Z) (h : list Stamp) : Memory :=
  {| rw := {| mut := m; sequence := s |}; stamps := h |}.

Definition set_mut (m : Mutex) (w : Memory) : Memory :=
  {| rw := {| mut := m; sequence := sequence (rw w) |}; stamps := stamps w |}.

Definition set_sequence (v : Z) (w : Memory) : Memory :=
  {| rw := {| mut := mut (rw w); sequence := v |}; stamps := stamps w |}.

Definition set_stamps (h : list Stamp) (w : Memory) : Memory :=
  {| rw := rw w; stamps := h |}.

(** ** Outcomes and the monad *)

(** The two ways a call can fail to return: the Go run time aborts the
    program when an unlocked [sync.Mutex] is unlocked, and panics when a nil
    pointer is dereferenced. *)
Inductive RuntimeError : Type :=
| UnlockOfUnlockedMutex
| NilDereference.

(** What a call does to the memory: it returns a value, it parks the calling
    goroutine for ever (a [mut.Lock()] that nobody will release), or it stops
    in a run-time error.  Each outcome carries the memory at that point. *)
Inductive Outcome (A : Type) : Type :=
| Ret (a : A) (w : Memory)
| Blocked (w : Memory)
| Crash (e : RuntimeError) (w : Memory).

Arguments Ret {A} a w.
Arguments Blocked {A} w.
Arguments Crash {A} e w.

Definition M (A : Type) : Type := Memory -> Outcome A.

Definition ret {A : Type} (a : A) : M A := fun w => Ret a w.

Definition bind {A B : Type} (m : M A) (k : A -> M B) : M B :=
  fun w =>
    match m w with
    | Ret a w' => k a w'
    | Blocked w' => Blocked w'
    | Crash e w' => Crash e w'
    end.

#[global] Instance M_ret : MRet M := @ret.
#[global] Instance M_bind : MBind M := fun A B k m => bind m k.

(** The memory an outcome ends in, whatever the outcome. *)
Definition final_memory {A : Type} (o : Outcome A) : Memory :=
  match o with
  | Ret _ w => w
  | Blocked w => w
  | Crash _ w => w
  end.

Definition returned {A : Type} (o : Outcome A) : option A :=
  match o with
  | Ret a _ => Some a
  | _ => None
  end.

(** ** Primitives of [sync], [sync/atomic] and of pointers *)

(** [rw.mut.Lock()]: takes the mutex when it is free; otherwise the caller
    blocks until it is released, which in a single goroutine is never. *)
Definition mut_Lock : M unit :=
  fun w =>
    match mut (rw w) with
    | Unlocked => Ret tt (set_mut Locked w)
    | Locked => Blocked w
    end.

(** [rw.mut.Unlock()]: "It is a run-time error if m is not locked on entry
    to Unlock."  The memory of that outcome records the sequence and the
    stamps at the error; the state word of a [sync.Mutex] that was unlocked
    while free is not modelled, and nothing is read from the [mut] field of
    that memory. *)
Definition mut_Unlock : M unit :=
  fun w =>
    match mut (rw w) with
    | Locked => Ret tt (set_mut Unlocked w)
    | Unlocked => Crash UnlockOfUnlockedMutex w
    end.

(** [atomic.LoadUint64(&rw.sequence)] *)
Definition atomic_LoadUint64 : M Z :=
  fun w => Ret (sequence (rw w)) w.

(** [atomic.AddUint64(&rw.sequence, delta)]: adds with wrap-around and
    returns the new value. *)
Definition atomic_AddUint64 (delta : Z) : M Z :=
  fun w =>
    let v := wrap64 (sequence (rw w) + delta) in
    Ret v (set_sequence v w).

(** [&stamp] for a local [stamp] that escapes: a fresh cell. *)
Definition new_stamp (v : Stamp) : M StampPtr :=
  fun w => Ret (Ref (length (stamps w))) (set_stamps (stamps w ++ [v]) w).

(** [*p] as a value. *)
Definition load_stamp (p : StampPtr) : M Stamp :=
  fun w =>
    match p with
    | Nil => Crash NilDereference w
    | Ref l =>
        match stamps w !! l with
        | Some v => Ret v w
        | None => Crash NilDereference w
        end
    end.

(** [*p = v] *)
Definition store_stamp (p : StampPtr) (v : Stamp) : M unit :=
  fun w =>
    match p with
    | Nil => Crash NilDereference w
    | Ref l =>
        match stamps w !! l with
        | Some _ => Ret tt (set_stamps (<[l := v]> (stamps w)) w)
        | None => Crash NilDereference w
        end
    end.

(** ** The methods of [RWMutex] *)

(** [[
func (rw *RWMutex) RStamp() *Stamp {
	stamp := Stamp(atomic.LoadUint64(&rw.sequence))
	return &stamp
}
]] *)
Definition RStamp : M StampPtr :=
  stamp ← atomic_LoadUint64;
  new_stamp stamp.

(** [[
func (rw *RWMutex) Ok(stamp *Stamp) (ok bool) {
	current := rw.RStamp()
	if ( *stamp & 1) == 1 {
		*stamp = *current
		return false
	}
	if *current != *stamp {
		*stamp = *current
		return false
	}
	return true
}
]] *)
Definition Ok (stamp : StampPtr) : M bool :=
  current ← RStamp;
  s ← load_stamp stamp;
  if Z.land s 1 =? 1 then
    c ← load_stamp current;
    store_stamp stamp c;;
    mret false
  else
    c ← load_stamp current;
    s' ← load_stamp stamp;
    if negb (c =? s') then
      c' ← load_stamp current;
      store_stamp stamp c';;
      mret false
    else
      mret true.

(** [[
func (rw *RWMutex) Lock() {
	rw.mut.Lock()
	atomic.AddUint64(&rw.sequence, 1)
}
]] *)
Definition Lock : M unit :=
  mut_Lock;;
  atomic_AddUint64 1;;
  mret tt.

(** [[
func (rw *RWMutex) Unlock() {
	atomic.AddUint64(&rw.sequence, 1)
	rw.mut.Unlock()
}
]] *)
Definition Unlock : M unit :=
  atomic_AddUint64 1;;
  mut_Unlock.

(** ** The parity invariant *)

(** The sequence is odd exactly when the mutex is held. *)
Definition parity_inv (w : Memory) : bool :=
  Bool.eqb (Z.odd (sequence (rw w))) (is_locked (mut (rw w))).

(** ** Validation as the specification words it *)

(** 1. atomically load the current sequence into [current]; 2. if the
    original stamp value is odd, set [stamp = current] and return false;
    3. else if [current != stamp], set [stamp = current] and return false;
    4. else return true. *)
Definition Validate (stamp : StampPtr) : M bool :=
  current ← atomic_LoadUint64;
  original ← load_stamp stamp;
  if Z.odd original then
    store_stamp stamp current;;
    mret false
  else if negb (current =? original) then
    store_stamp stamp current;;
    mret false
  else
    mret true.

(** The memory once the cell of a local [current] with value [v] exists. *)
Definition with_scratch (v : Stamp) (w : Memory) : Memory :=
  set_stamps (stamps w ++ [v]) w.

(** What [Ok] answers for a stamp [s] when the sequence is [cur]. *)
Definition Ok_result (cur s : Z) : bool := negb (Z.odd s) && (cur =? s).

(** ** Executions of one goroutine after the other *)

Inductive Op : Type :=
| OpLock
| OpUnlock
| OpRStamp
| OpOk (p : StampPtr).

Definition run_op (o : Op) : M unit :=
  match o with
  | OpLock => Lock
  | OpUnlock => Unlock
  | OpRStamp => RStamp;; mret tt
  | OpOk p => Ok p;; mret tt
  end.

Fixpoint run (ops : list Op) : M unit :=
  match ops with
  | [] => mret tt
  | o :: ops' => run_op o;; run ops'
  end.

Definition is_reader_op (o : Op) : bool :=
  match o with
  | OpRStamp | OpOk _ => true
  | OpLock | OpUnlock => false
  end.

(** Whether a writer is between the return of its [Lock] and its [Unlock]
    once the calls of [ops] have been made, [inside] telling whether one was
    before them. *)
Definition writer_inside_from (inside : bool) (ops : list Op) : bool :=
  fold_left
    (fun b o => match o with OpLock => true | OpUnlock => false | _ => b end)
    ops inside.

Definition writer_inside (ops : list Op) : bool := writer_inside_from false ops.

(** The [Lock] and [Unlock] calls of [ops], in order, and their number. *)
Definition writer_ops (ops : list Op) : list Op :=
  List.filter (fun o => negb (is_reader_op o)) ops.

Definition writer_calls (ops : list Op) : nat := length (writer_ops ops).

(** Whether [ops] validates the stamp at address [l]. *)
Definition validates (l : nat) (ops : list Op) : bool :=
  existsb (fun o => match o with OpOk (Ref l') => Nat.eqb l' l | _ => false end) ops.

(** The first [n] calls of a writer that locks and unlocks in turn. *)
Fixpoint alternation (n : nat) : list Op :=
  match n with
  | O => []
  | S n' => alternation n' ++ [if Nat.even n' then OpLock else OpUnlock]
  end.

(** [n] complete critical sections of a writer. *)
Fixpoint critical_sections (n : nat) : M unit :=
  match n with
  | O => mret tt
  | S n' => Lock;; Unlock;; critical_sections n'
  end.

(** ** The sequential scenarios of the test file *)

(** [TestTwoReadersHappy] *)
Definition TwoReadersHappy : M (bool * bool) :=
  stamp1 ← RStamp;
  stamp2 ← RStamp;
  ok1 ← Ok stamp1;
  ok2 ← Ok stamp2;
  mret (ok1, ok2).

(** [TestOkIsFalseIfWriterArrivesAfterStampAcquired] *)
Definition WriterArrivesAfterStampAcquired : M (bool * bool) :=
  stamp ← RStamp;
  Lock;;
  ok1 ← Ok stamp;
  ok2 ← Ok stamp;
  mret (ok1, ok2).

(** [TestOkIsFalseIfWriterArrivesBeforeStampAcquired] *)
Definition WriterArrivesBeforeStampAcquired : M (bool * bool) :=
  Lock;;
  stamp ← RStamp;
  ok1 ← Ok stamp;
  ok2 ← Ok stamp;
  mret (ok1, ok2).

(** [TestOkIsFalseIfWriterArrivesBeforeStampAcquiredAndLeavesBeforeOk] *)
Definition WriterArrivesBeforeStampAcquiredAndLeavesBeforeOk : M (bool * bool) :=
  Lock;;
  stamp ← RStamp;
  Unlock;;
  ok1 ← Ok stamp;
  ok2 ← Ok stamp;
  mret (ok1, ok2).

(** The same with a first validation while the writer is still inside. *)
Definition WriterLeavesAfterFirstOk : M (bool * bool * bool) :=
  Lock;;
  stamp ← RStamp;
  ok0 ← Ok stamp;
  Unlock;;
  ok1 ← Ok stamp;
  ok2 ← Ok stamp;
  mret (ok0, ok1, ok2).

(** A writer's whole critical section, then a reader's first attempt. *)
Definition WriterLeavesBeforeStampAcquired : M bool :=
  Lock;;
  Unlock;;
  stamp ← RStamp;
  Ok stamp.

(** A reader's attempt around a writer's whole critical section. *)
Definition WriterComesAndGoesBeforeOk : M bool :=
  stamp ← RStamp;
  Lock;;
  Unlock;;
  Ok stamp.

(** ** Writer goroutines, interleaved *)

(** Where a writer goroutine stands in [rw.Lock(); ...; rw.Unlock()]:
    outside, inside [Lock] with the mutex taken and the increment to come,
    in its critical section ([Lock] has returned, [Unlock] is not yet
    called), or inside [Unlock] with the increment done and the mutex still
    to release. *)
Inductive WriterPc : Type :=
| Idle
| Acquired
| InCS
| Releasing.

#[global] Instance WriterPc_eq_dec : EqDecision WriterPc.
Proof. solve_decision. Defined.

Definition is_InCS (p : WriterPc) : bool :=
  match p with
  | InCS => true
  | _ => false
  end.

(** The next atomic action of a writer, and where it stands afterwards. *)
Definition writer_action (p : WriterPc) : M unit * WriterPc :=
  match p with
  | Idle => (mut_Lock, Acquired)
  | Acquired => (atomic_AddUint64 1;; mret tt, InCS)
  | InCS => (atomic_AddUint64 1;; mret tt, Releasing)
  | Releasing => (mut_Unlock, Idle)
  end.

Record Config : Type := mkConfig {
  mem : Memory;
  pcs : list WriterPc
}.

(** Goroutine [t] is scheduled for one atomic action.  A goroutine parked in
    [mut.Lock()] makes no progress; a run-time error stops the program
    ([None]); scheduling a goroutine that does not exist does nothing. *)
Definition step (t : nat) (c : Config) : option Config :=
  match pcs c !! t with
  | None => Some c
  | Some p =>
      match (writer_action p).1 (mem c) with
      | Ret _ w' => Some {| mem := w'; pcs := <[t := (writer_action p).2]> (pcs c) |}
      | Blocked _ => Some c
      | Crash _ _ => None
      end
  end.

Fixpoint exec (schedule : list nat) (c : Config) : option Config :=
  match schedule with
  | [] => Some c
  | t :: schedule' =>
      match step t c with
      | Some c' => exec schedule' c'
      | None => None
      end
  end.

(** [n] writer goroutines about to start on the memory [w]. *)
Definition init (n : nat) (w : Memory) : Config :=
  {| mem := w; pcs := replicate n Idle |}.

(** The mutex is free and every goroutine is outside, or it is held and
    exactly one goroutine [t] is between taking and releasing it; the
    sequence has changed parity from the start ([odd0]) exactly when that
    goroutine is in its critical section. *)
Definition exclusion_inv (odd0 : bool) (c : Config) : Prop :=
  match mut (rw (mem c)) with
  | Unlocked =>
      (forall t p, pcs c !! t = Some p -> p = Idle) /\
      Z.odd (sequence (rw (mem c))) = odd0
  | Locked =>
      exists t p,
        pcs c !! t = Some p /\ p <> Idle /\
        (forall t' p', pcs c !! t' = Some p' -> t' <> t -> p' = Idle) /\
        Z.odd (sequence (rw (mem c))) = xorb odd0 (is_InCS p)
  end.

(** ** The reader's retry loop *)

(** The loop every reader of the repository runs ([TestReadHappyPath],
    [optimisticReader], the benchmarks, the README):
[[
	stamp := rw.RStamp()
	for {
		// critical section
		if rw.Ok(stamp) {
			break
		}
	}
]]
    The loop has no bound; [fuel] is the number of attempts it is given
    here, and [None] says they were all used up.  The critical section is
    any computation; its last result is what the reader keeps. *)
Fixpoint retry {A : Type} (fuel : nat) (critical : M A) (stamp : StampPtr)
    : M (option A) :=
  match fuel with
  | O => mret None
  | S fuel' =>
      a ← critical;
      ok ← Ok stamp;
      if ok : bool then mret (Some a) else retry fuel' critical stamp
  end.

Definition OptimisticRead {A : Type} (fuel : nat) (critical : M A) : M (option A) :=
  stamp ← RStamp;
  retry fuel critical stamp.

(** A critical section that only reads: it returns and leaves the memory
    as it found it. *)
Definition read_only {A : Type} (critical : M A) : Prop :=
  forall w, exists a, critical w = Ret a w.

(** ** [HammerRWMutex]: readers and writers at once *)

(** The stress test of the repository starts two [writer] goroutines and
    [numReaders] [optimisticReader] goroutines on one lock and one [int32]
    counter, [activity], and waits for all of them on a channel.  Every
    access to shared memory in it is a call of [sync/atomic] or of the
    mutex, so an execution is an interleaving of those calls; a goroutine is
    modelled by the place it has reached, and one step of it is its next
    such call together with the local computation that follows it. *)

(** [int32] and [int] results, wrapped. *)
Definition wrap_int32 (z : Z) : Z := (z + 2 ^ 31) mod 2 ^ 32 - 2 ^ 31.

Definition wrap_int (z : Z) : Z := (z + 2 ^ 63) mod 2 ^ 64 - 2 ^ 63.

(** [[
func writer(rwm *RWMutex, num_iterations int, activity *int32, cdone chan bool) {
	for i := 0; i < num_iterations; i++ {
		rwm.Lock()
		n := atomic.AddInt32(activity, 10000)
		if n != 10000 {
			panic(fmt.Sprintf("wlock(%d)\n", n))
		}
		for i := 0; i < 100; i++ {
		}
		atomic.AddInt32(activity, -10000)
		rwm.Unlock()
	}
	cdone <- true
}
]]
    [WTop]: at the loop test; [WAcquired]: in [Lock], the mutex taken;
    [WInCS]: [Lock] has returned; [WActive]: [activity] raised;
    [WLeaving]: [activity] lowered, [Unlock] not yet called; [WReleasing]: in
    [Unlock], the sequence incremented; [WDone]: the send on [cdone] made. *)
Inductive WriterAt : Type :=
| WTop
| WAcquired
| WInCS
| WActive
| WLeaving
| WReleasing
| WDone.

(** [[
func optimisticReader(rwm *RWMutex, numIterations int, activity *int32, cdone chan bool) {
	for i := 0; i < numIterations; i++ {
		var n1, n2 int32
		stamp := rwm.RStamp()
		for {
			n1 = atomic.LoadInt32(activity)
			for i := 0; i < 100; i++ {
			}
			n2 = atomic.LoadInt32(activity)
			if rwm.Ok(stamp) {
				break
			}
		}
		if n1 != 0 || n2 != 0 {
			panic(fmt.Sprintf("wlock(%d,%d)\n", n1, n2))
		}
	}
	cdone <- true
}
]]
    [RTop]: at the loop test; [RRead1]: the stamp captured, about to load
    [n1]; [RRead2]: about to load [n2]; [RValidate]: about to call [Ok];
    [RDone]: the send on [cdone] made. *)
Inductive ReaderAt : Type :=
| RTop
| RRead1 (stamp : StampPtr)
| RRead2 (stamp : StampPtr) (n1 : Z)
| RValidate (stamp : StampPtr) (n1 n2 : Z)
| RDone.

(** A goroutine: which function it runs, its loop counter [i], its place. *)
Inductive Goroutine : Type :=
| GWriter (i : Z) (place : WriterAt)
| GReader (i : Z) (place : ReaderAt).

Inductive Panic : Type :=
| OddInitialSequence (initialSequence : Z)
| WriterSaw (n : Z)
| ReaderSaw (n1 n2 : Z)
| RuntimePanic (e : RuntimeError).

(** The lock and the stamps, [activity], the number of values main has
    received from [cdone], and the goroutines. *)
Record Hammer : Type := mkHammer {
  hmem : Memory;
  activity : Z;
  received : Z;
  goroutines : list Goroutine
}.

Inductive Result : Type :=
| Running (c : Hammer)
| Panicked (p : Panic).

(** Goroutine [t] goes on as [g], with the memory [w] and [activity] at [a]. *)
Definition resume (c : Hammer) (w : Memory) (a : Z) (t : nat) (g : Goroutine) : Hammer :=
  {| hmem := w; activity := a; received := received c;
     goroutines := <[t := g]> (goroutines c) |}.

(** A call on the lock by a goroutine: it returns and the goroutine goes on
    with [k], or it parks the goroutine where it is, or it panics. *)
Definition call {A : Type} (m : M A) (c : Hammer) (k : A -> Memory -> Result) : Result :=
  match m (hmem c) with
  | Ret a w => k a w
  | Blocked _ => Running c
  | Crash e _ => Panicked (RuntimePanic e)
  end.

(** [cdone <- true]: the channel has no buffer, so the send goes through
    when main receives, which it does [expected] times. *)
Definition send (expected : Z) (c : Hammer) (t : nat) (g : Goroutine) : Result :=
  if received c <? expected then
    Running {| hmem := hmem c; activity := activity c;
               received := wrap_int (received c + 1);
               goroutines := <[t := g]> (goroutines c) |}
  else Running c.

Definition goroutine_step (numIterations expected : Z) (t : nat) (g : Goroutine)
    (c : Hammer) : Result :=
  match g with
  | GWriter i WTop =>
      if i <? numIterations then
        call mut_Lock c (fun _ w => Running (resume c w (activity c) t (GWriter i WAcquired)))
      else send expected c t (GWriter i WDone)
  | GWriter i WAcquired =>
      call (atomic_AddUint64 1) c
           (fun _ w => Running (resume c w (activity c) t (GWriter i WInCS)))
  | GWriter i WInCS =>
      let n := wrap_int32 (activity c + 10000) in
      if negb (n =? 10000) then Panicked (WriterSaw n)
      else Running (resume c (hmem c) n t (GWriter i WActive))
  | GWriter i WActive =>
      Running (resume c (hmem c) (wrap_int32 (activity c + -10000)) t (GWriter i WLeaving))
  | GWriter i WLeaving =>
      call (atomic_AddUint64 1) c
           (fun _ w => Running (resume c w (activity c) t (GWriter i WReleasing)))
  | GWriter i WReleasing =>
      call mut_Unlock c
           (fun _ w => Running (resume c w (activity c) t (GWriter (wrap_int (i + 1)) WTop)))
  | GWriter i WDone => Running c
  | GReader i RTop =>
      if i <? numIterations then
        call RStamp c (fun stamp w => Running (resume c w (activity c) t (GReader i (RRead1 stamp))))
      else send expected c t (GReader i RDone)
  | GReader i (RRead1 stamp) =>
      Running (resume c (hmem c) (activity c) t (GReader i (RRead2 stamp (activity c))))
  | GReader i (RRead2 stamp n1) =>
      Running (resume c (hmem c) (activity c) t (GReader i (RValidate stamp n1 (activity c))))
  | GReader i (RValidate stamp n1 n2) =>
      call (Ok stamp) c
           (fun ok w =>
              if ok : bool then
                if negb (n1 =? 0) || negb (n2 =? 0) then Panicked (ReaderSaw n1 n2)
                else Running (resume c w (activity c) t (GReader (wrap_int (i + 1)) RTop))
              else Running (resume c w (activity c) t (GReader i (RRead1 stamp))))
  | GReader i RDone => Running c
  end.

(** Goroutine [t] is scheduled for one step. *)
Definition hammer_step (numIterations expected : Z) (t : nat) (c : Hammer) : Result :=
  match goroutines c !! t with
  | None => Running c
  | Some g => goroutine_step numIterations expected t g c
  end.

Fixpoint hammer_exec (numIterations expected : Z) (schedule : list nat) (c : Hammer)
    : Result :=
  match schedule with
  | [] => Running c
  | t :: schedule' =>
      match hammer_step numIterations expected t c with
      | Running c' => hammer_exec numIterations expected schedule' c'
      | Panicked p => Panicked p
      end
  end.

(** [[
	var activity int32
	var rwm RWMutex
	rwm.sequence = initialSequence
	cdone := make(chan bool)
	go writer(&rwm, numIterations, &activity, cdone)
	var i int
	for i = 0; i < numReaders/2; i++ {
		go optimisticReader(&rwm, numIterations, &activity, cdone)
	}
	go writer(&rwm, numIterations, &activity, cdone)
	for ; i < numReaders; i++ {
		go optimisticReader(&rwm, numIterations, &activity, cdone)
	}
]]
    A goroutine that main has not started yet is one that has not been
    scheduled yet, so all of them are there from the start. *)
Definition hammer_init (numReaders : Z) (initialSequence : Z) : Hammer :=
  {| hmem := memory_at Unlocked initialSequence [];
     activity := 0;
     received := 0;
     goroutines :=
       [GWriter 0 WTop]
       ++ replicate (Z.to_nat (numReaders ÷ 2)) (GReader 0 RTop)
       ++ [GWriter 0 WTop]
       ++ replicate (Z.to_nat (numReaders - Z.max 0 (numReaders ÷ 2))) (GReader 0 RTop) |}.

(** [[
func HammerRWMutex(gomaxprocs, numReaders, numIterations int, initialSequence uint64) {
	runtime.GOMAXPROCS(gomaxprocs)
	if (initialSequence & 1) != 0 {
		panic(fmt.Sprintf("initial sequence must be even, got %d", initialSequence))
	}
	...
	for i := 0; i < 2+numReaders; i++ {
		<-cdone
	}
}
]]
    under the schedule [schedule] of its goroutines.  [GOMAXPROCS] bounds how
    many of them run at once and not how their steps interleave. *)
Definition HammerRWMutex (gomaxprocs numReaders numIterations : Z)
    (initialSequence : Z) (schedule : list nat) : Result :=
  if negb (Z.land initialSequence 1 =? 0) then
    Panicked (OddInitialSequence initialSequence)
  else
    hammer_exec numIterations (wrap_int (2 + numReaders)) schedule
                (hammer_init numReaders initialSequence).

(** The ten calls [TestRWMutex] and [TestRWMutex_SequenceWrapAround] make:
    [HammerRWMutex(1, 1, n, ..)], [HammerRWMutex(1, 3, n, ..)], ... *)
Definition hammer_calls : list (Z * Z) :=
  [(1, 1); (1, 3); (1, 10); (4, 1); (4, 3); (4, 10); (10, 1); (10, 3); (10, 10); (10, 5)].

(** [[
func TestRWMutex(t *testing.T) {
	defer runtime.GOMAXPROCS(runtime.GOMAXPROCS(-1))
	n := 1000
	if testing.Short() {
		n = 5
	}
	HammerRWMutex(1, 1, n, 0)
	...
	HammerRWMutex(10, 5, n, 0)
}
]]
    [short] is what [testing.Short()] answers and [schedule_of k] the
    schedule of the goroutines of the [k]-th call.  The result is what each
    call does; the test passes when none panics. *)
Definition TestRWMutex (short : bool) (schedule_of : nat -> list nat) : list Result :=
  let n := if short then 5 else 1000 in
  imap (fun k call => HammerRWMutex call.1 call.2 n 0 (schedule_of k)) hammer_calls.

(** [[
func TestRWMutex_SequenceWrapAround(t *testing.T) {
	defer runtime.GOMAXPROCS(runtime.GOMAXPROCS(-1))
	n := 1000
	initialSequence := MaxUint64 - 251
	if testing.Short() {
		initialSequence = MaxUint64 - 1
		n = 5
	}
	HammerRWMutex(1, 1, n, initialSequence)
	...
	HammerRWMutex(10, 5, n, initialSequence)
}
]] *)
Definition TestRWMutex_SequenceWrapAround (short : bool) (schedule_of : nat -> list nat)
    : list Result :=
  let n := if short then 5 else 1000 in
  let initialSequence := if short then MaxUint64 - 1 else MaxUint64 - 251 in
  imap (fun k call => HammerRWMutex call.1 call.2 n initialSequence (schedule_of k))
       hammer_calls.

Definition is_running (r : Result) : Prop :=
  match r with
  | Running _ => True
  | Panicked _ => False
  end.

(** Main has received all it waits for: [HammerRWMutex] returns. *)
Definition hammer_returned (numReaders : Z) (c : Hammer) : Prop :=
  received c = wrap_int (2 + numReaders).

(** *** What the goroutines keep true *)

Definition total {A : Type} (f : A -> Z) (l : list A) : Z :=
  foldr (fun a acc => f a + acc) 0 l.

(** The increments of the sequence a goroutine has made so far. *)
Definition done_incs (g : Goroutine) : Z :=
  match g with
  | GWriter i place =>
      2 * i +
      match place with
      | WTop | WAcquired | WDone => 0
      | WInCS | WActive | WLeaving => 1
      | WReleasing => 2
      end
  | GReader _ _ => 0
  end.

Definition increments (c : Hammer) : Z := total done_incs (goroutines c).

(** The increments a goroutine makes in all. *)
Definition all_incs (N : Z) (g : Goroutine) : Z :=
  match g with
  | GWriter _ _ => 2 * N
  | GReader _ _ => 0
  end.

Definition holding (g : Goroutine) : bool :=
  match g with
  | GWriter _ (WAcquired | WInCS | WActive | WLeaving | WReleasing) => true
  | _ => false
  end.

Definition in_cs (g : Goroutine) : bool :=
  match g with
  | GWriter _ (WInCS | WActive | WLeaving) => true
  | _ => false
  end.

Definition active (g : Goroutine) : bool :=
  match g with
  | GWriter _ WActive => true
  | _ => false
  end.

Definition is_done (g : Goroutine) : Z :=
  match g with
  | GWriter _ WDone | GReader _ RDone => 1
  | _ => 0
  end.

Definition writer_wf (N num : Z) (g : Goroutine) : Prop :=
  match g with
  | GWriter i place =>
      0 <= i <= N /\
      (place <> WTop -> place <> WDone -> i < num) /\
      (place = WDone -> i = N)
  | GReader _ _ => True
  end.

(** The lock's side: the sequence is the initial one plus the increments
    made; loop counters are in range; the mutex is held by exactly the one
    writer between taking and releasing it, [activity] is raised exactly
    while that writer has raised it, and the number of increments is odd
    exactly while it is in its critical section. *)
Record writers_inv (seq0 N num : Z) (c : Hammer) : Prop := {
  inv_sequence : sequence (rw (hmem c)) = wrap64 (seq0 + increments c);
  inv_wf : forall t g, goroutines c !! t = Some g -> writer_wf N num g;
  inv_all : total (all_incs N) (goroutines c) = 4 * N;
  inv_holder :
    match mut (rw (hmem c)) with
    | Unlocked =>
        (forall t g, goroutines c !! t = Some g -> holding g = false) /\
        activity c = 0 /\ Z.odd (increments c) = false
    | Locked =>
        exists t g,
          goroutines c !! t = Some g /\ holding g = true /\
          (forall t' g', goroutines c !! t' = Some g' -> t' <> t -> holding g' = false) /\
          activity c = (if active g then 10000 else 0) /\
          Z.odd (increments c) = in_cs g
    end
}.

(** A value of [activity] a reader may hold for a stamp captured after [k]
    increments, when [K] have been made: zero, unless the stamp is odd or
    out of date. *)
Definition seen (k K n : Z) : Prop := n = 0 \/ Z.odd k = true \/ k < K.

Definition stamp_of (place : ReaderAt) : option StampPtr :=
  match place with
  | RRead1 p | RRead2 p _ | RValidate p _ _ => Some p
  | RTop | RDone => None
  end.

Definition reader_ok (seq0 : Z) (st : list Stamp) (K : Z) (place : ReaderAt) : Prop :=
  match place with
  | RTop | RDone => True
  | RRead1 p =>
      exists l k, p = Ref l /\ st !! l = Some (wrap64 (seq0 + k)) /\ 0 <= k <= K
  | RRead2 p n1 =>
      exists l k, p = Ref l /\ st !! l = Some (wrap64 (seq0 + k)) /\ 0 <= k <= K /\
                  seen k K n1
  | RValidate p n1 n2 =>
      exists l k, p = Ref l /\ st !! l = Some (wrap64 (seq0 + k)) /\ 0 <= k <= K /\
                  seen k K n1 /\ seen k K n2
  end.

(** The readers' side: each reader's stamp is a cell of its own, captured
    after some number of increments, and what the reader has loaded from
    [activity] since is zero unless that stamp is odd or out of date. *)
Record readers_inv (seq0 : Z) (c : Hammer) : Prop := {
  inv_reader :
    forall t i place, goroutines c !! t = Some (GReader i place) ->
      reader_ok seq0 (stamps (hmem c)) (increments c) place;
  inv_own_stamp :
    forall t t' i i' place place' p,
      t <> t' ->
      goroutines c !! t = Some (GReader i place) ->
      goroutines c !! t' = Some (GReader i' place') ->
      stamp_of place = Some p -> stamp_of place' <> Some p
}.

(** Main has received one value from each goroutine that is done. *)
Definition received_inv (c : Hammer) : Prop :=
  received c = total is_done (goroutines c) /\ 0 <= received c.

(** ** Proof part *)

(** *** The monad *)

Lemma bind_Ret {A B : Type} (m : M A) (k : A -> M B) (w w' : Memory) (a : A) :
  m w = Ret a w' -> (m ≫= k) w = k a w'.
Proof. intros H. unfold mbind, M_bind, bind. by rewrite H. Qed.

Lemma bind_Blocked {A B : Type} (m : M A) (k : A -> M B) (w w' : Memory) :
  m w = Blocked w' -> (m ≫= k) w = Blocked w'.
Proof. intros H. unfold mbind, M_bind, bind. by rewrite H. Qed.

Lemma bind_Crash {A B : Type} (m : M A) (k : A -> M B) (w w' : Memory) e :
  m w = Crash e w' -> (m ≫= k) w = Crash e w'.
Proof. intros H. unfold mbind, M_bind, bind. by rewrite H. Qed.

Lemma bind_inv_Ret {A B : Type} (m : M A) (k : A -> M B) (w w' : Memory) (b : B) :
  (m ≫= k) w = Ret b w' -> exists a w1, m w = Ret a w1 /\ k a w1 = Ret b w'.
Proof.
  unfold mbind, M_bind, bind. destruct (m w) as [a w1| |]; try discriminate.
  intros H. by exists a, w1.
Qed.

Lemma mret_run {A : Type} (a : A) (w : Memory) : (mret a : M A) w = Ret a w.
Proof. reflexivity. Qed.

(** *** Arithmetic of the sequence *)

Lemma land_1_odd (s : Z) : (Z.land s 1 =? 1) = Z.odd s.
Proof.
  change 1 with (Z.ones 1) at 1. rewrite Z.land_ones by lia.
  change (2 ^ 1) with 2. rewrite Zmod_odd. by destruct (Z.odd s).
Qed.

Lemma odd_wrap64 (z : Z) : Z.odd (wrap64 z) = Z.odd z.
Proof.
  unfold wrap64, two64. rewrite <- !Z.bit0_odd.
  apply Z.mod_pow2_bits_low. lia.
Qed.

Lemma odd_wrap64_succ (z : Z) : Z.odd (wrap64 (z + 1)) = negb (Z.odd z).
Proof. rewrite odd_wrap64. replace (z + 1) with (Z.succ z) by lia. rewrite Z.odd_succ. by rewrite <- Z.negb_odd. Qed.

Lemma wrap64_range (z : Z) : is_uint64 (wrap64 z).
Proof. unfold is_uint64, wrap64, two64. apply Z.mod_pos_bound. lia. Qed.

Lemma wrap64_small (z : Z) : is_uint64 z -> wrap64 z = z.
Proof. unfold is_uint64, wrap64. intros H. by apply Z.mod_small. Qed.

Lemma wrap64_add_l (a b : Z) : wrap64 (wrap64 a + b) = wrap64 (a + b).
Proof. unfold wrap64. apply Zplus_mod_idemp_l. Qed.

(** *** The primitives and the four methods, run *)

Lemma load_stamp_Ref (w : Memory) (l : nat) (v : Stamp) :
  stamps w !! l = Some v -> load_stamp (Ref l) w = Ret v w.
Proof. intros H. unfold load_stamp. by rewrite H. Qed.

Lemma store_stamp_Ref (w : Memory) (l : nat) (v0 v : Stamp) :
  stamps w !! l = Some v0 ->
  store_stamp (Ref l) v w = Ret tt (set_stamps (<[l := v]> (stamps w)) w).
Proof. intros H. unfold store_stamp. by rewrite H. Qed.

Lemma RStamp_run (w : Memory) :
  RStamp w = Ret (Ref (length (stamps w))) (with_scratch (sequence (rw w)) w).
Proof. reflexivity. Qed.

Lemma Lock_run (w : Memory) :
  mut (rw w) = Unlocked ->
  Lock w =
  Ret tt {| rw := {| mut := Locked; sequence := wrap64 (sequence (rw w) + 1) |};
            stamps := stamps w |}.
Proof.
  intros H. unfold Lock, mbind, M_bind, bind, mut_Lock, atomic_AddUint64. by rewrite H.
Qed.

Lemma Lock_blocked (w : Memory) : mut (rw w) = Locked -> Lock w = Blocked w.
Proof.
  intros H. unfold Lock, mbind, M_bind, bind, mut_Lock, atomic_AddUint64. by rewrite H.
Qed.

Lemma Unlock_run (w : Memory) :
  mut (rw w) = Locked ->
  Unlock w =
  Ret tt {| rw := {| mut := Unlocked; sequence := wrap64 (sequence (rw w) + 1) |};
            stamps := stamps w |}.
Proof.
  intros H. unfold Unlock, mbind, M_bind, bind, mut_Unlock, atomic_AddUint64. simpl. by rewrite H.
Qed.

Lemma Unlock_crash (w : Memory) :
  mut (rw w) = Unlocked ->
  Unlock w =
  Crash UnlockOfUnlockedMutex
        {| rw := {| mut := Unlocked; sequence := wrap64 (sequence (rw w) + 1) |};
           stamps := stamps w |}.
Proof.
  intros H. unfold Unlock, mbind, M_bind, bind, mut_Unlock, atomic_AddUint64. simpl.
  rewrite H. unfold set_sequence. by rewrite H.
Qed.

Lemma Ok_Nil (w : Memory) :
  Ok Nil w = Crash NilDereference (with_scratch (sequence (rw w)) w).
Proof. reflexivity. Qed.

(** [Ok] on a pointer that the store extended by [current] resolves. *)
Lemma Ok_run_scratch (w : Memory) (l : nat) (s : Stamp) :
  let cur := sequence (rw w) in
  (stamps w ++ [cur]) !! l = Some s ->
  Ok (Ref l) w =
  Ret (Ok_result cur s)
      (set_stamps (if Ok_result cur s then stamps w ++ [cur]
                   else <[l := cur]> (stamps w ++ [cur])) w).
Proof.
  intros cur H1. unfold Ok.
  erewrite bind_Ret by apply RStamp_run.
  set (w1 := with_scratch _ w).
  assert (H2 : stamps w1 !! length (stamps w) = Some cur).
  { unfold w1. simpl. by apply list_lookup_middle. }
  change (stamps w1 !! l = Some s) in H1.
  erewrite bind_Ret by (apply load_stamp_Ref, H1).
  rewrite land_1_odd. unfold Ok_result.
  destruct (Z.odd s); simpl.
  - erewrite bind_Ret by (apply load_stamp_Ref, H2).
    erewrite bind_Ret by (eapply store_stamp_Ref, H1).
    reflexivity.
  - erewrite bind_Ret by (apply load_stamp_Ref, H2).
    erewrite bind_Ret by (apply load_stamp_Ref, H1).
    destruct (cur =? s); simpl.
    + reflexivity.
    + erewrite bind_Ret by (apply load_stamp_Ref, H2).
      erewrite bind_Ret by (eapply store_stamp_Ref, H1).
      reflexivity.
Qed.

Lemma Ok_crash_scratch (w : Memory) (l : nat) :
  (stamps w ++ [sequence (rw w)]) !! l = None ->
  Ok (Ref l) w = Crash NilDereference (with_scratch (sequence (rw w)) w).
Proof.
  intros H. unfold Ok.
  erewrite bind_Ret by apply RStamp_run.
  apply bind_Crash. unfold load_stamp, with_scratch, set_stamps. simpl. by rewrite H.
Qed.

(** [Ok] on a stamp of the store: the answer, and the memory it leaves. *)
Lemma Ok_run (w : Memory) (l : nat) (s : Stamp) :
  stamps w !! l = Some s ->
  let cur := sequence (rw w) in
  Ok (Ref l) w =
  Ret (Ok_result cur s)
      (with_scratch cur
         (set_stamps (if Ok_result cur s then stamps w else <[l := cur]> (stamps w)) w)).
Proof.
  intros Hl cur.
  assert (Hlt : (l < length (stamps w))%nat) by (eapply lookup_lt_Some, Hl).
  rewrite (Ok_run_scratch w l s) by (by apply lookup_app_l_Some).
  fold cur. unfold with_scratch, set_stamps. simpl.
  destruct (Ok_result cur s); [done |]. by rewrite insert_app_l.
Qed.

(** *** What the reader's methods leave alone *)

Lemma RStamp_rw (w : Memory) : rw (final_memory (RStamp w)) = rw w.
Proof. reflexivity. Qed.

Lemma Ok_rw (p : StampPtr) (w : Memory) : rw (final_memory (Ok p w)) = rw w.
Proof.
  destruct p as [|l]; [reflexivity |].
  destruct ((stamps w ++ [sequence (rw w)]) !! l) as [s|] eqn:E.
  - by rewrite (Ok_run_scratch w l s E).
  - by rewrite (Ok_crash_scratch w l E).
Qed.

Lemma Ok_Ret_rw (p : StampPtr) (w w' : Memory) (b : bool) :
  Ok p w = Ret b w' -> rw w' = rw w.
Proof. intros H. by rewrite <- (Ok_rw p w), H. Qed.

(** A cell other than the one validated keeps its value. *)
Lemma Ok_frame (p : StampPtr) (w w' : Memory) (b : bool) (l : nat) (v : Stamp) :
  stamps w !! l = Some v -> p <> Ref l -> Ok p w = Ret b w' ->
  stamps w' !! l = Some v.
Proof.
  intros Hl Hp H. destruct p as [|l']; [discriminate |].
  assert (Hne : l' <> l) by congruence.
  destruct ((stamps w ++ [sequence (rw w)]) !! l') as [s|] eqn:E.
  - rewrite (Ok_run_scratch w l' s E) in H. injection H as _ <-. simpl.
    destruct (Ok_result _ _).
    + by apply lookup_app_l_Some.
    + rewrite list_lookup_insert_ne by done. by apply lookup_app_l_Some.
  - by rewrite (Ok_crash_scratch w l' E) in H.
Qed.

(** A cell that holds the current sequence still holds it afterwards,
    whichever stamp was validated. *)
Lemma Ok_keeps_current (p : StampPtr) (w w' : Memory) (b : bool) (l : nat) :
  stamps w !! l = Some (sequence (rw w)) -> Ok p w = Ret b w' ->
  stamps w' !! l = Some (sequence (rw w)).
Proof.
  intros Hl H. destruct (decide (p = Ref l)) as [->|Hp].
  - rewrite (Ok_run w l _ Hl) in H. injection H as _ <-. simpl.
    apply lookup_app_l_Some.
    destruct (Ok_result _ _); [done |].
    apply list_lookup_insert_eq. by eapply lookup_lt_Some.
  - by eapply Ok_frame.
Qed.

Lemma RStamp_frame (w w' : Memory) (p : StampPtr) (l : nat) (v : Stamp) :
  stamps w !! l = Some v -> RStamp w = Ret p w' -> stamps w' !! l = Some v.
Proof.
  intros Hl H. rewrite RStamp_run in H. injection H as _ <-.
  by apply lookup_app_l_Some.
Qed.

(** *** Executions *)

Lemma run_cons (o : Op) (ops : list Op) (w : Memory) :
  run (o :: ops) w = (run_op o;; run ops) w.
Proof. reflexivity. Qed.

Lemma run_app (ops1 ops2 : list Op) (w : Memory) :
  run (ops1 ++ ops2) w = (run ops1;; run ops2) w.
Proof.
  revert w. induction ops1 as [|o ops1 IH]; intros w; [reflexivity |].
  simpl. unfold mbind, M_bind, bind.
  destruct (run_op o w) as [[] w1| |]; [| reflexivity ..].
  apply IH.
Qed.

Lemma run_app_inv (ops1 ops2 : list Op) (w0 w : Memory) :
  run (ops1 ++ ops2) w0 = Ret tt w ->
  exists w1, run ops1 w0 = Ret tt w1 /\ run ops2 w1 = Ret tt w.
Proof.
  rewrite run_app. intros H.
  apply bind_inv_Ret in H as ([] & w1 & H1 & H2). by exists w1.
Qed.

Lemma run_op_reader_rw (o : Op) (w w' : Memory) :
  is_reader_op o = true -> run_op o w = Ret tt w' -> rw w' = rw w.
Proof.
  destruct o as [| | |p]; try discriminate; intros _ H; simpl in H;
    apply bind_inv_Ret in H as (a & w1 & H1 & H2); injection H2 as <-.
  - by rewrite <- (RStamp_rw w), H1.
  - by eapply Ok_Ret_rw.
Qed.

(** Readers alone change neither the lock nor a stamp that is up to date. *)
Lemma readers_keep (ops : list Op) (w w' : Memory) :
  forallb is_reader_op ops = true -> run ops w = Ret tt w' ->
  rw w' = rw w /\
  (forall l, stamps w !! l = Some (sequence (rw w)) ->
             stamps w' !! l = Some (sequence (rw w))).
Proof.
  revert w. induction ops as [|o ops IH]; intros w Hr H.
  - injection H as <-. done.
  - simpl in Hr. apply andb_prop in Hr as [Ho Hr].
    rewrite run_cons in H. apply bind_inv_Ret in H as ([] & w1 & H1 & H2).
    pose proof (run_op_reader_rw o w w1 Ho H1) as Hrw.
    destruct (IH w1 Hr H2) as [IH1 IH2]. split; [congruence |].
    intros l Hl. rewrite <- Hrw. apply IH2. rewrite Hrw.
    destruct o as [| | |p]; try discriminate; simpl in H1;
      apply bind_inv_Ret in H1 as (a & w2 & H1 & H3); injection H3 as <-.
    + by eapply RStamp_frame.
    + by eapply Ok_keeps_current.
Qed.

(** One call keeps the sequence's parity in step with the mutex and with
    the record of who is inside. *)
Lemma run_op_parity (o : Op) (w w' : Memory) (inside : bool) :
  Z.odd (sequence (rw w)) = inside -> is_locked (mut (rw w)) = inside ->
  run_op o w = Ret tt w' ->
  Z.odd (sequence (rw w')) = writer_inside_from inside [o] /\
  is_locked (mut (rw w')) = writer_inside_from inside [o].
Proof.
  intros Hodd Hmut H. destruct o as [| | |p]; simpl in *.
  - destruct (mut (rw w)) eqn:Em.
    + rewrite (Lock_run w Em) in H. injection H as <-. simpl.
      rewrite odd_wrap64_succ, Hodd. by rewrite <- Hmut.
    + by rewrite (Lock_blocked w Em) in H.
  - destruct (mut (rw w)) eqn:Em.
    + by rewrite (Unlock_crash w Em) in H.
    + rewrite (Unlock_run w Em) in H. injection H as <-. simpl.
      rewrite odd_wrap64_succ, Hodd. by rewrite <- Hmut.
  - apply bind_inv_Ret in H as (a & w1 & H1 & H2). injection H2 as <-.
    rewrite RStamp_run in H1. injection H1 as _ <-. done.
  - apply bind_inv_Ret in H as (a & w1 & H1 & H2). injection H2 as <-.
    by rewrite (Ok_Ret_rw _ _ _ _ H1).
Qed.

Lemma run_parity (ops : list Op) (w w' : Memory) (inside : bool) :
  Z.odd (sequence (rw w)) = inside -> is_locked (mut (rw w)) = inside ->
  run ops w = Ret tt w' ->
  Z.odd (sequence (rw w')) = writer_inside_from inside ops /\
  is_locked (mut (rw w')) = writer_inside_from inside ops.
Proof.
  revert w inside. induction ops as [|o ops IH]; intros w inside Hodd Hmut H.
  - injection H as <-. done.
  - rewrite run_cons in H. apply bind_inv_Ret in H as ([] & w1 & H1 & H2).
    destruct (run_op_parity o w w1 inside Hodd Hmut H1) as [Ho Hm].
    exact (IH w1 _ Ho Hm H2).
Qed.

(** *** The methods, by what a caller can observe *)

Lemma Ok_result_odd_stamp (cur s : Z) : Z.odd s = true -> Ok_result cur s = false.
Proof. unfold Ok_result. by intros ->. Qed.

Lemma Ok_result_odd_sequence (cur s : Z) : Z.odd cur = true -> Ok_result cur s = false.
Proof.
  unfold Ok_result. intros Hc. destruct (Z.odd s) eqn:Es; [done |]. simpl.
  apply Z.eqb_neq. intros ->. congruence.
Qed.

Lemma Ok_result_same (s : Z) : Z.odd s = false -> Ok_result s s = true.
Proof. unfold Ok_result. intros ->. simpl. apply Z.eqb_refl. Qed.

Lemma Ok_result_changed (cur s : Z) : cur <> s -> Ok_result cur s = false.
Proof.
  unfold Ok_result. intros H. apply andb_false_iff. right. by apply Z.eqb_neq.
Qed.

Lemma Ok_result_true (cur s : Z) :
  Ok_result cur s = true -> Z.odd s = false /\ cur = s.
Proof.
  unfold Ok_result. intros H. apply andb_prop in H as [H1 H2].
  split; [by destruct (Z.odd s) | by apply Z.eqb_eq].
Qed.

Lemma Ok_spec (w : Memory) (l : nat) (s : Stamp) :
  stamps w !! l = Some s ->
  let cur := sequence (rw w) in
  exists w',
    Ok (Ref l) w = Ret (Ok_result cur s) w' /\
    rw w' = rw w /\
    stamps w' !! l = Some (if Ok_result cur s then s else cur).
Proof.
  intros Hl cur. eexists. split; [by apply Ok_run |]. split; [reflexivity |].
  simpl. apply lookup_app_l_Some. fold cur.
  destruct (Ok_result cur s); [done |].
  apply list_lookup_insert_eq. by eapply lookup_lt_Some.
Qed.

Lemma RStamp_spec (w : Memory) :
  exists l w',
    RStamp w = Ret (Ref l) w' /\
    rw w' = rw w /\
    stamps w' !! l = Some (sequence (rw w)).
Proof.
  eexists _, _. split; [apply RStamp_run |]. split; [reflexivity |].
  simpl. by apply list_lookup_middle.
Qed.

Lemma Lock_spec (w : Memory) :
  mut (rw w) = Unlocked ->
  exists w',
    Lock w = Ret tt w' /\
    rw w' = {| mut := Locked; sequence := wrap64 (sequence (rw w) + 1) |} /\
    stamps w' = stamps w.
Proof. intros H. eexists. split; [by apply Lock_run |]. done. Qed.

Lemma Unlock_spec (w : Memory) :
  mut (rw w) = Locked ->
  exists w',
    Unlock w = Ret tt w' /\
    rw w' = {| mut := Unlocked; sequence := wrap64 (sequence (rw w) + 1) |} /\
    stamps w' = stamps w.
Proof. intros H. eexists. split; [by apply Unlock_run |]. done. Qed.

(** A writer's whole critical section. *)
Lemma Lock_Unlock_spec (w : Memory) :
  mut (rw w) = Unlocked ->
  exists w',
    (Lock;; Unlock) w = Ret tt w' /\
    rw w' = {| mut := Unlocked; sequence := wrap64 (sequence (rw w) + 2) |} /\
    stamps w' = stamps w.
Proof.
  intros H. destruct (Lock_spec w H) as (w1 & H1 & Hrw1 & Hs1).
  destruct (Unlock_spec w1) as (w2 & H2 & Hrw2 & Hs2); [by rewrite Hrw1 |].
  exists w2. split; [by erewrite bind_Ret by exact H1 |].
  split; [| congruence].
  rewrite Hrw2, Hrw1. simpl. rewrite wrap64_add_l. do 2 f_equal. lia.
Qed.

(** Capturing a stamp and validating it at once succeeds exactly when the
    sequence is even. *)
Lemma RStamp_Ok_spec (w : Memory) :
  exists w',
    (stamp ← RStamp; Ok stamp) w = Ret (negb (Z.odd (sequence (rw w)))) w' /\
    rw w' = rw w.
Proof.
  destruct (RStamp_spec w) as (l & w1 & H1 & Hrw1 & Hl1).
  destruct (Ok_spec w1 l _ Hl1) as (w2 & H2 & Hrw2 & _).
  exists w2. split; [| congruence].
  erewrite bind_Ret by exact H1. rewrite H2, Hrw1. f_equal.
  unfold Ok_result. rewrite Z.eqb_refl. by destruct (Z.odd _).
Qed.

(** *** The scenarios *)

Lemma even_not_odd (z : Z) : Z.even z = true -> Z.odd z = false.
Proof. intros H. by rewrite <- Z.negb_even, H. Qed.

Ltac run_with H := erewrite bind_Ret by exact H.

Lemma WriterArrivesBeforeStampAcquiredAndLeavesBeforeOk_run (w : Memory) :
  mut (rw w) = Unlocked -> Z.even (sequence (rw w)) = true ->
  exists w',
    WriterArrivesBeforeStampAcquiredAndLeavesBeforeOk w = Ret (false, true) w' /\
    rw w' = {| mut := Unlocked; sequence := wrap64 (sequence (rw w) + 2) |}.
Proof.
  intros Hm He. apply even_not_odd in He.
  destruct (Lock_spec w Hm) as (w1 & H1 & Hrw1 & _).
  destruct (RStamp_spec w1) as (l & w2 & H2 & Hrw2 & Hl2).
  destruct (Unlock_spec w2) as (w3 & H3 & Hrw3 & Hs3); [by rewrite Hrw2, Hrw1 |].
  rewrite <- Hs3 in Hl2.
  destruct (Ok_spec w3 l _ Hl2) as (w4 & H4 & Hrw4 & Hl4).
  assert (Hodd1 : Z.odd (sequence (rw w1)) = true).
  { rewrite Hrw1. simpl. by rewrite odd_wrap64_succ, He. }
  rewrite (Ok_result_odd_stamp _ _ Hodd1) in H4, Hl4.
  destruct (Ok_spec w4 l _ Hl4) as (w5 & H5 & Hrw5 & _).
  rewrite Hrw4, Ok_result_same in H5.
  2: { rewrite Hrw3, Hrw2. simpl. by rewrite odd_wrap64_succ, Hodd1. }
  exists w5. split.
  - unfold WriterArrivesBeforeStampAcquiredAndLeavesBeforeOk.
    run_with H1. run_with H2. run_with H3. run_with H4. run_with H5. done.
  - rewrite Hrw5, Hrw4, Hrw3, Hrw2, Hrw1. simpl.
    rewrite wrap64_add_l. do 2 f_equal. lia.
Qed.

Lemma WriterLeavesAfterFirstOk_run (w : Memory) :
  mut (rw w) = Unlocked -> Z.even (sequence (rw w)) = true ->
  exists w', WriterLeavesAfterFirstOk w = Ret (false, false, true) w'.
Proof.
  intros Hm He. apply even_not_odd in He.
  destruct (Lock_spec w Hm) as (w1 & H1 & Hrw1 & _).
  assert (Hodd1 : Z.odd (sequence (rw w1)) = true).
  { rewrite Hrw1. simpl. by rewrite odd_wrap64_succ, He. }
  destruct (RStamp_spec w1) as (l & w2 & H2 & Hrw2 & Hl2).
  destruct (Ok_spec w2 l _ Hl2) as (w3 & H3 & Hrw3 & Hl3).
  rewrite (Ok_result_odd_stamp _ _ Hodd1) in H3, Hl3. rewrite Hrw2 in Hl3.
  destruct (Unlock_spec w3) as (w4 & H4 & Hrw4 & Hs4);
    [by rewrite Hrw3, Hrw2, Hrw1 |].
  rewrite <- Hs4 in Hl3.
  destruct (Ok_spec w4 l _ Hl3) as (w5 & H5 & Hrw5 & Hl5).
  rewrite (Ok_result_odd_stamp _ _ Hodd1) in H5, Hl5.
  destruct (Ok_spec w5 l _ Hl5) as (w6 & H6 & _).
  rewrite Hrw5, Ok_result_same in H6.
  2: { rewrite Hrw4, Hrw3, Hrw2. simpl. by rewrite odd_wrap64_succ, Hodd1. }
  exists w6. unfold WriterLeavesAfterFirstOk.
  run_with H1. run_with H2. run_with H3. run_with H4. run_with H5. run_with H6.
  done.
Qed.

Lemma WriterLeavesBeforeStampAcquired_run (w : Memory) :
  mut (rw w) = Unlocked -> Z.even (sequence (rw w)) = true ->
  exists w', WriterLeavesBeforeStampAcquired w = Ret true w'.
Proof.
  intros Hm He. apply even_not_odd in He.
  destruct (Lock_Unlock_spec w Hm) as (w2 & H2 & Hrw2 & _).
  destruct (RStamp_Ok_spec w2) as (w3 & H3 & _).
  exists w3. unfold WriterLeavesBeforeStampAcquired.
  apply bind_inv_Ret in H2 as ([] & w1 & H1 & H2).
  run_with H1. run_with H2. rewrite H3, Hrw2. simpl.
  rewrite odd_wrap64. replace (sequence (rw w) + 2) with (Z.succ (Z.succ (sequence (rw w)))) by lia.
  by rewrite Z.odd_succ_succ, He.
Qed.

Lemma WriterComesAndGoesBeforeOk_run (w : Memory) :
  mut (rw w) = Unlocked -> is_uint64 (sequence (rw w)) ->
  exists w', WriterComesAndGoesBeforeOk w = Ret false w'.
Proof.
  intros Hm Hr.
  destruct (RStamp_spec w) as (l & w1 & H1 & Hrw1 & Hl1).
  destruct (Lock_Unlock_spec w1) as (w3 & H3 & Hrw3 & Hs3); [by rewrite Hrw1 |].
  rewrite <- Hs3 in Hl1.
  destruct (Ok_spec w3 l _ Hl1) as (w4 & H4 & _).
  rewrite Ok_result_changed in H4.
  2: { rewrite Hrw3, Hrw1. simpl. unfold wrap64, is_uint64, two64 in *.
       intros E.
       destruct (Z_lt_ge_dec (sequence (rw w) + 2) (2 ^ 64)).
       - rewrite Z.mod_small in E by lia. lia.
       - replace (sequence (rw w) + 2) with ((sequence (rw w) + 2 - 2 ^ 64) + 1 * 2 ^ 64) in E by lia.
         rewrite Z.mod_add in E by lia. rewrite Z.mod_small in E by lia. lia. }
  exists w4. unfold WriterComesAndGoesBeforeOk.
  apply bind_inv_Ret in H3 as ([] & w2 & H2 & H3).
  run_with H1. run_with H2. run_with H3. done.
Qed.

(** *** Repeated critical sections *)

Lemma critical_sections_run (n : nat) (w : Memory) :
  mut (rw w) = Unlocked -> is_uint64 (sequence (rw w)) ->
  exists w',
    critical_sections n w = Ret tt w' /\
    rw w' = {| mut := Unlocked; sequence := wrap64 (sequence (rw w) + 2 * Z.of_nat n) |} /\
    stamps w' = stamps w.
Proof.
  revert w. induction n as [|n IH]; intros w Hm Hr.
  - exists w. split; [reflexivity |]. split; [| reflexivity].
    replace (sequence (rw w) + 2 * Z.of_nat 0) with (sequence (rw w)) by lia.
    rewrite wrap64_small by done. destruct w as [[m s] h]. simpl in *. by subst m.
  - destruct (Lock_Unlock_spec w Hm) as (w2 & H2 & Hrw2 & Hs2).
    destruct (IH w2) as (w3 & H3 & Hrw3 & Hs3).
    { by rewrite Hrw2. }
    { rewrite Hrw2. apply wrap64_range. }
    exists w3. split; [| split; [| congruence]].
    + apply bind_inv_Ret in H2 as ([] & w1 & H1 & H2).
      simpl. run_with H1. run_with H2. exact H3.
    + rewrite Hrw3, Hrw2. simpl. rewrite wrap64_add_l. do 2 f_equal. lia.
Qed.


(** *** Interleaved writers *)

Lemma exclusion_inv_init (n : nat) (w : Memory) :
  mut (rw w) = Unlocked -> exclusion_inv (Z.odd (sequence (rw w))) (init n w).
Proof.
  intros Hm. unfold exclusion_inv, init. simpl. rewrite Hm. split; [| done].
  intros t p Hp. by apply lookup_replicate in Hp as [-> _].
Qed.

(** A goroutine that is not outside is the one holding the mutex. *)
Lemma exclusion_inv_holder (odd0 : bool) (c : Config) (t : nat) (p : WriterPc) :
  exclusion_inv odd0 c -> pcs c !! t = Some p -> p <> Idle ->
  mut (rw (mem c)) = Locked /\
  (forall t' p', pcs c !! t' = Some p' -> t' <> t -> p' = Idle) /\
  Z.odd (sequence (rw (mem c))) = xorb odd0 (is_InCS p).
Proof.
  unfold exclusion_inv. intros Hinv Ht Hp.
  destruct (mut (rw (mem c))).
  - destruct Hinv as [Hall _]. by specialize (Hall t p Ht).
  - destruct Hinv as (t0 & p0 & Ht0 & Hp0 & Hothers & Hodd).
    destruct (decide (t = t0)) as [->|Hne].
    + rewrite Ht in Ht0. injection Ht0 as <-. done.
    + by specialize (Hothers t p Ht Hne).
Qed.

Lemma exclusion_inv_owner (odd0 : bool) (w : Memory) (ps : list WriterPc)
    (t : nat) (p p' : WriterPc) :
  mut (rw w) = Locked -> ps !! t = Some p -> p' <> Idle ->
  (forall t' q, ps !! t' = Some q -> t' <> t -> q = Idle) ->
  Z.odd (sequence (rw w)) = xorb odd0 (is_InCS p') ->
  exclusion_inv odd0 {| mem := w; pcs := <[t := p']> ps |}.
Proof.
  intros Hm Ht Hp' Hothers Hodd. unfold exclusion_inv. simpl. rewrite Hm.
  exists t, p'. split; [| split; [done | split; [| done]]].
  - apply list_lookup_insert_eq. by eapply lookup_lt_Some.
  - intros t' q Hq Hne. rewrite list_lookup_insert_ne in Hq by done. eauto.
Qed.

Lemma step_exclusion_inv (odd0 : bool) (t : nat) (c : Config) :
  exclusion_inv odd0 c ->
  exists c', step t c = Some c' /\ exclusion_inv odd0 c'.
Proof.
  intros Hinv. unfold step.
  destruct (pcs c !! t) as [p|] eqn:Et; [| by exists c].
  destruct p; simpl.
  - (* rw.mut.Lock() *)
    unfold mut_Lock. destruct (mut (rw (mem c))) eqn:Em; [| by exists c].
    eexists. split; [reflexivity |].
    unfold exclusion_inv in Hinv. rewrite Em in Hinv. destruct Hinv as [Hall Hodd].
    apply (exclusion_inv_owner odd0 _ _ t Idle Acquired);
      [reflexivity | exact Et | done | eauto |].
    simpl. by rewrite xorb_false_r.
  - (* atomic.AddUint64(&rw.sequence, 1), in Lock *)
    destruct (exclusion_inv_holder odd0 c t Acquired Hinv Et) as (Hm & Hothers & Hodd);
      [done |].
    eexists. split; [reflexivity |].
    apply (exclusion_inv_owner odd0 _ _ t Acquired InCS);
      [exact Hm | exact Et | done | exact Hothers |].
    simpl. rewrite odd_wrap64_succ, Hodd. simpl. by destruct odd0.
  - (* atomic.AddUint64(&rw.sequence, 1), in Unlock *)
    destruct (exclusion_inv_holder odd0 c t InCS Hinv Et) as (Hm & Hothers & Hodd);
      [done |].
    eexists. split; [reflexivity |].
    apply (exclusion_inv_owner odd0 _ _ t InCS Releasing);
      [exact Hm | exact Et | done | exact Hothers |].
    simpl. rewrite odd_wrap64_succ, Hodd. simpl. by destruct odd0.
  - (* rw.mut.Unlock() *)
    destruct (exclusion_inv_holder odd0 c t Releasing Hinv Et) as (Hm & Hothers & Hodd);
      [done |].
    unfold mut_Unlock. rewrite Hm.
    eexists. split; [reflexivity |].
    unfold exclusion_inv. simpl. split.
    + intros t' q Hq. destruct (decide (t' = t)) as [->|Hne].
      * rewrite list_lookup_insert_eq in Hq by (by eapply lookup_lt_Some).
        congruence.
      * rewrite list_lookup_insert_ne in Hq by done. eauto.
    + rewrite Hodd. simpl. by rewrite xorb_false_r.
Qed.

Lemma exec_exclusion_inv (odd0 : bool) (schedule : list nat) (c : Config) :
  exclusion_inv odd0 c ->
  exists c', exec schedule c = Some c' /\ exclusion_inv odd0 c'.
Proof.
  revert c. induction schedule as [|t schedule IH]; intros c Hinv.
  - by exists c.
  - destruct (step_exclusion_inv odd0 t c Hinv) as (c1 & H1 & Hinv1).
    simpl. rewrite H1. by apply IH.
Qed.

(** [Lock] and [Unlock] are the atomic actions of a goroutine, in order. *)
Lemma Lock_actions (w : Memory) :
  Lock w = ((writer_action Idle).1;; (writer_action Acquired).1) w.
Proof. reflexivity. Qed.

Lemma Unlock_actions (w : Memory) :
  Unlock w = ((writer_action InCS).1;; (writer_action Releasing).1) w.
Proof. reflexivity. Qed.

(** *** How far the sequence moves *)

Lemma run_op_sequence (o : Op) (w w' : Memory) :
  run_op o w = Ret tt w' ->
  sequence (rw w') = wrap64 (sequence (rw w) + Z.of_nat (writer_calls [o])) \/
  (is_reader_op o = true /\ rw w' = rw w).
Proof.
  intros H. destruct o as [| | |p].
  - left. simpl in H. destruct (mut (rw w)) eqn:Em.
    + rewrite (Lock_run w Em) in H. by injection H as <-.
    + by rewrite (Lock_blocked w Em) in H.
  - left. simpl in H. destruct (mut (rw w)) eqn:Em.
    + by rewrite (Unlock_crash w Em) in H.
    + rewrite (Unlock_run w Em) in H. by injection H as <-.
  - right. split; [done |]. exact (run_op_reader_rw OpRStamp _ _ eq_refl H).
  - right. split; [done |]. exact (run_op_reader_rw (OpOk p) _ _ eq_refl H).
Qed.

Lemma writer_calls_cons (o : Op) (ops : list Op) :
  writer_calls (o :: ops) =
  ((if is_reader_op o then 0 else 1) + writer_calls ops)%nat.
Proof. unfold writer_calls, writer_ops. simpl. by destruct (is_reader_op o). Qed.

Lemma run_sequence (ops : list Op) (w w' : Memory) :
  is_uint64 (sequence (rw w)) -> run ops w = Ret tt w' ->
  sequence (rw w') = wrap64 (sequence (rw w) + Z.of_nat (writer_calls ops)).
Proof.
  revert w. induction ops as [|o ops IH]; intros w Hr H.
  - injection H as <-. unfold writer_calls. simpl.
    rewrite Z.add_0_r. by rewrite wrap64_small.
  - rewrite run_cons in H. apply bind_inv_Ret in H as ([] & w1 & H1 & H2).
    rewrite writer_calls_cons.
    destruct (run_op_sequence o w w1 H1) as [Hs|[Ho Hrw]].
    + assert (Hr1 : is_uint64 (sequence (rw w1))) by (rewrite Hs; apply wrap64_range).
      rewrite (IH w1 Hr1 H2), Hs, wrap64_add_l. f_equal.
      destruct o; unfold writer_calls in *; simpl; lia.
    + assert (Hr1 : is_uint64 (sequence (rw w1))) by (by rewrite Hrw).
      rewrite (IH w1 Hr1 H2), Hrw, Ho. done.
Qed.

Lemma run_op_frame (o : Op) (w w' : Memory) (l : nat) (v : Stamp) :
  stamps w !! l = Some v -> validates l [o] = false ->
  run_op o w = Ret tt w' -> stamps w' !! l = Some v.
Proof.
  intros Hl Hv H. destruct o as [| | |p]; simpl in H.
  - destruct (mut (rw w)) eqn:Em.
    + rewrite (Lock_run w Em) in H. by injection H as <-.
    + by rewrite (Lock_blocked w Em) in H.
  - destruct (mut (rw w)) eqn:Em.
    + by rewrite (Unlock_crash w Em) in H.
    + rewrite (Unlock_run w Em) in H. by injection H as <-.
  - apply bind_inv_Ret in H as (a & w1 & H1 & H2). injection H2 as <-.
    by eapply RStamp_frame.
  - apply bind_inv_Ret in H as (a & w1 & H1 & H2). injection H2 as <-.
    eapply Ok_frame; [exact Hl | | exact H1].
    intros ->. simpl in Hv. by rewrite Nat.eqb_refl in Hv.
Qed.

Lemma run_frame (ops : list Op) (w w' : Memory) (l : nat) (v : Stamp) :
  stamps w !! l = Some v -> validates l ops = false ->
  run ops w = Ret tt w' -> stamps w' !! l = Some v.
Proof.
  revert w. induction ops as [|o ops IH]; intros w Hl Hv H.
  - by injection H as <-.
  - rewrite run_cons in H. apply bind_inv_Ret in H as ([] & w1 & H1 & H2).
    unfold validates in Hv. simpl in Hv. apply orb_false_elim in Hv as [Ho Hv].
    apply (IH w1); [| exact Hv | exact H2].
    eapply run_op_frame; [exact Hl | | exact H1].
    unfold validates. simpl. by rewrite Ho.
Qed.

(** A stamp that validates was captured in, and is validated in, a state with
    no writer inside; and unless the sequence went all the way round in
    between, no [Lock] or [Unlock] was called in the reader's window. *)
Lemma Ok_true_window (w w1 w2 w3 : Memory) (l : nat) (window : list Op) :
  is_uint64 (sequence (rw w)) ->
  RStamp w = Ret (Ref l) w1 ->
  validates l window = false ->
  run window w1 = Ret tt w2 ->
  Ok (Ref l) w2 = Ret true w3 ->
  Z.odd (sequence (rw w)) = false /\
  sequence (rw w2) = sequence (rw w) /\
  (Z.of_nat (writer_calls window) < two64 -> writer_calls window = 0%nat).
Proof.
  intros Hr H1 Hv H2 H3.
  rewrite RStamp_run in H1. injection H1 as <- <-.
  assert (Hl : stamps (with_scratch (sequence (rw w)) w) !! length (stamps w)
               = Some (sequence (rw w))) by (by apply list_lookup_middle).
  pose proof (run_frame _ _ _ _ _ Hl Hv H2) as Hl2.
  rewrite (Ok_run w2 _ _ Hl2) in H3. injection H3 as Hres _.
  apply Ok_result_true in Hres as [Hodd Hsame].
  split; [done |]. split; [done |].
  rewrite (run_sequence window (with_scratch (sequence (rw w)) w) w2 Hr H2) in Hsame.
  simpl in Hsame.
  intros Hlt. unfold wrap64, is_uint64, two64 in *.
  destruct (Z_lt_ge_dec (sequence (rw w) + Z.of_nat (writer_calls window)) (2 ^ 64)).
  - rewrite Z.mod_small in Hsame by lia. lia.
  - replace (sequence (rw w) + Z.of_nat (writer_calls window))
      with ((sequence (rw w) + Z.of_nat (writer_calls window) - 2 ^ 64) + 1 * 2 ^ 64)
      in Hsame by lia.
    rewrite Z.mod_add in Hsame by lia. rewrite Z.mod_small in Hsame by lia. lia.
Qed.

(** The bound is needed: after [2^63] critical sections the sequence has
    gone all the way round, and a stamp captured before them validates. *)
Lemma stamp_validates_after_full_cycle (n : nat) (w : Memory) :
  Z.of_nat n = 2 ^ 63 ->
  mut (rw w) = Unlocked -> Z.even (sequence (rw w)) = true ->
  is_uint64 (sequence (rw w)) ->
  exists w', (stamp ← RStamp; critical_sections n;; Ok stamp) w = Ret true w'.
Proof.
  intros Hn Hm He Hr. apply even_not_odd in He.
  destruct (RStamp_spec w) as (l & w1 & H1 & Hrw1 & Hl1).
  destruct (critical_sections_run n w1) as (w2 & H2 & Hrw2 & Hs2);
    [by rewrite Hrw1 .. |].
  rewrite <- Hs2 in Hl1.
  destruct (Ok_spec w2 l _ Hl1) as (w3 & H3 & _).
  assert (Hsame : sequence (rw w2) = sequence (rw w)).
  { rewrite Hrw2, Hrw1. simpl. rewrite Hn. unfold wrap64, is_uint64, two64 in *.
    replace (sequence (rw w) + 2 * 2 ^ 63) with (sequence (rw w) + 1 * 2 ^ 64) by lia.
    rewrite Z.mod_add by lia. apply Z.mod_small. lia. }
  rewrite Hsame, Ok_result_same in H3 by done.
  exists w3. run_with H1. run_with H2. exact H3.
Qed.

(** *** Executions in which every call returns *)

Lemma writer_inside_app (ops1 ops2 : list Op) :
  writer_inside (ops1 ++ ops2) = writer_inside_from (writer_inside ops1) ops2.
Proof. unfold writer_inside, writer_inside_from. apply fold_left_app. Qed.

Lemma writer_ops_app (ops1 ops2 : list Op) :
  writer_ops (ops1 ++ ops2) = writer_ops ops1 ++ writer_ops ops2.
Proof. apply List.filter_app. Qed.

Lemma run_single (o : Op) (w w' : Memory) :
  run [o] w = Ret tt w' -> run_op o w = Ret tt w'.
Proof.
  intros H. rewrite run_cons in H.
  apply bind_inv_Ret in H as ([] & w1 & H1 & H2). by injection H2 as <-.
Qed.

(** The calls of writers in such an execution are [Lock], [Unlock], [Lock],
    ... in turn: a [Lock] on a held mutex never returns, and an [Unlock] of a
    free one stops the program. *)
Lemma run_alternates (ops : list Op) (w0 w : Memory) :
  mut (rw w0) = Unlocked -> Z.even (sequence (rw w0)) = true ->
  run ops w0 = Ret tt w ->
  writer_ops ops = alternation (writer_calls ops) /\
  writer_inside ops = Nat.odd (writer_calls ops).
Proof.
  intros Hm He. apply even_not_odd in He. revert w.
  induction ops as [|o ops IH] using rev_ind; intros w H; [done |].
  apply run_app_inv in H as (w1 & H1 & H2). apply run_single in H2.
  destruct (IH w1 H1) as [IHops IHin].
  destruct (run_parity ops w0 w1 false He) as [_ Hlocked]; [by rewrite Hm | done |].
  fold (writer_inside ops) in Hlocked. rewrite IHin in Hlocked.
  rewrite writer_inside_app, IHin. unfold writer_calls in *.
  rewrite writer_ops_app, length_app.
  destruct o as [| | |p]; simpl in *.
  - destruct (mut (rw w1)) eqn:Em; [| by rewrite (Lock_blocked w1 Em) in H2].
    simpl in Hlocked. rewrite Nat.add_1_r. simpl.
    rewrite <- Nat.negb_odd, <- Hlocked, IHops at 1. simpl.
    by rewrite Nat.odd_succ, <- Nat.negb_odd, <- Hlocked.
  - destruct (mut (rw w1)) eqn:Em; [by rewrite (Unlock_crash w1 Em) in H2 |].
    simpl in Hlocked. rewrite Nat.add_1_r. simpl.
    rewrite <- Nat.negb_odd, <- Hlocked, IHops at 1. simpl.
    by rewrite Nat.odd_succ, <- Nat.negb_odd, <- Hlocked.
  - by rewrite app_nil_r, Nat.add_0_r.
  - by rewrite app_nil_r, Nat.add_0_r.
Qed.

(** The bound of [Ok_true_window] cannot be dropped. *)
Lemma full_cycle_exists :
  exists n : nat,
    Z.of_nat n = 2 ^ 63 /\
    forall w : Memory,
      mut (rw w) = Unlocked -> Z.even (sequence (rw w)) = true ->
      is_uint64 (sequence (rw w)) ->
      exists w', (stamp ← RStamp; critical_sections n;; Ok stamp) w = Ret true w'.
Proof.
  exists (Z.to_nat (2 ^ 63)).
  assert (Hn : Z.of_nat (Z.to_nat (2 ^ 63)) = 2 ^ 63) by (apply Z2Nat.id; lia).
  split; [exact Hn |].
  intros w. by apply stamp_validates_after_full_cycle.
Qed.

(** *** Interleaved writers and the parity of the sequence *)

Lemma interleaved_parity (n : nat) (w : Memory) (schedule : list nat) :
  mut (rw w) = Unlocked -> Z.even (sequence (rw w)) = true ->
  exists c,
    exec schedule (init n w) = Some c /\
    (Z.odd (sequence (rw (mem c))) = true <-> exists t, pcs c !! t = Some InCS).
Proof.
  intros Hm He. apply even_not_odd in He.
  destruct (exec_exclusion_inv _ schedule _ (exclusion_inv_init n w Hm))
    as (c & Hc & Hinv).
  rewrite He in Hinv. exists c. split; [done |]. split.
  - intros Hodd. unfold exclusion_inv in Hinv.
    destruct (mut (rw (mem c))).
    + destruct Hinv as [_ Heven]. congruence.
    + destruct Hinv as (t & p & Ht & _ & _ & Hp). exists t.
      rewrite Hodd in Hp. simpl in Hp. by destruct p.
  - intros [t Ht].
    destruct (exclusion_inv_holder _ c t InCS Hinv Ht) as (_ & _ & Hodd); done.
Qed.

(** *** The tests of the repository, on the zero value of [RWMutex] *)

Example TestTwoReadersHappy :
  returned (TwoReadersHappy (memory_at Unlocked 0 [])) = Some (true, true).
Proof. reflexivity. Qed.

Example TestOkIsFalseIfWriterArrivesAfterStampAcquired :
  returned (WriterArrivesAfterStampAcquired (memory_at Unlocked 0 [])) =
  Some (false, false).
Proof. reflexivity. Qed.

Example TestOkIsFalseIfWriterArrivesBeforeStampAcquired :
  returned (WriterArrivesBeforeStampAcquired (memory_at Unlocked 0 [])) =
  Some (false, false).
Proof. reflexivity. Qed.

Example TestOkIsFalseIfWriterArrivesBeforeStampAcquiredAndLeavesBeforeOk :
  returned (WriterArrivesBeforeStampAcquiredAndLeavesBeforeOk (memory_at Unlocked 0 [])) =
  Some (false, true).
Proof. reflexivity. Qed.

(** Two writers contend: the second one stays parked while the first is in
    its critical section, and gets in once the first has released. *)
Example exec_contended :
  exec [0; 1; 0; 1]%nat (init 2 (memory_at Unlocked 0 [])) =
  Some {| mem := memory_at Locked 1 []; pcs := [InCS; Idle] |} /\
  exec [0; 1; 0; 1; 0; 0; 1; 1]%nat (init 2 (memory_at Unlocked 0 [])) =
  Some {| mem := memory_at Locked 3 []; pcs := [Idle; InCS] |}.
Proof. split; reflexivity. Qed.

(** *** The specification's algorithm, run *)

Lemma Validate_run (w : Memory) (l : nat) (s : Stamp) :
  stamps w !! l = Some s ->
  let cur := sequence (rw w) in
  Validate (Ref l) w =
  Ret (Ok_result cur s)
      (set_stamps (if Ok_result cur s then stamps w else <[l := cur]> (stamps w)) w).
Proof.
  intros Hl cur. unfold Validate.
  erewrite bind_Ret by reflexivity.
  erewrite bind_Ret by (apply load_stamp_Ref, Hl).
  fold cur. unfold Ok_result.
  destruct (Z.odd s); simpl.
  - erewrite bind_Ret by (eapply store_stamp_Ref, Hl). reflexivity.
  - destruct (cur =? s); simpl.
    + by destruct w.
    + erewrite bind_Ret by (eapply store_stamp_Ref, Hl). reflexivity.
Qed.

(** ** The claims *)

(** C1.  [Ok] is the specification's Validate.  On every stamp of the store
    both return the same answer and leave the same lock and the same stamps,
    [Ok] having allocated one more cell for its local [current]; the answer
    is false with the stamp set to the current sequence when the stamp was
    odd, false with the stamp set to the current sequence when the stamp was
    even and differs from the current sequence, and true with the stamp
    untouched otherwise. *)
Theorem Ok_follows_Validate (w : Memory) (l : nat) (s : Stamp) :
  stamps w !! l = Some s ->
  exists (ok : bool) (w' : Memory),
    Validate (Ref l) w = Ret ok w' /\
    Ok (Ref l) w = Ret ok (with_scratch (sequence (rw w)) w') /\
    rw w' = rw w /\
    (Z.odd s = true ->
     ok = false /\ stamps w' = <[l := sequence (rw w)]> (stamps w)) /\
    (Z.odd s = false -> sequence (rw w) <> s ->
     ok = false /\ stamps w' = <[l := sequence (rw w)]> (stamps w)) /\
    (Z.odd s = false -> sequence (rw w) = s ->
     ok = true /\ stamps w' = stamps w).
Proof.
  intros Hl. eexists _, _.
  split; [by apply Validate_run |]. split; [by apply Ok_run |].
  split; [reflexivity |]. simpl. repeat split.
  - by apply Ok_result_odd_stamp.
  - by rewrite Ok_result_odd_stamp.
  - by apply Ok_result_changed.
  - by rewrite Ok_result_changed.
  - subst s. by apply Ok_result_same.
  - subst s. by rewrite Ok_result_same.
Qed.

Lemma Ok_follows_Validate_witness :
  stamps (memory_at Locked 7 [4; 6; 7]) !! 1%nat = Some 6 /\
  exists (ok : bool) (w' : Memory),
    Validate (Ref 1) (memory_at Locked 7 [4; 6; 7]) = Ret ok w' /\
    Ok (Ref 1) (memory_at Locked 7 [4; 6; 7]) = Ret ok (with_scratch 7 w') /\
    rw w' = rw (memory_at Locked 7 [4; 6; 7]) /\
    (Z.odd 6 = true -> ok = false /\ stamps w' = <[1%nat := 7]> [4; 6; 7]) /\
    (Z.odd 6 = false -> 7 <> 6 ->
     ok = false /\ stamps w' = <[1%nat := 7]> [4; 6; 7]) /\
    (Z.odd 6 = false -> 7 = 6 -> ok = true /\ stamps w' = [4; 6; 7]).
Proof.
  split; [reflexivity |].
  apply (Ok_follows_Validate (memory_at Locked 7 [4; 6; 7]) 1 6). reflexivity.
Defined.

(** C2.  Parity invariant.  Take any execution that starts with the mutex
    free and the sequence at any even value and in which every call returns,
    and stop it at any point.  The [Lock] and [Unlock] calls made so far
    alternate, starting with [Lock]; the sequence is odd exactly when the
    last of them is a [Lock], that is when a writer is between the return
    of its [Lock] and its [Unlock]; and the mutex is held exactly then.
    Reader calls in between change nothing, and the wrap at [2^64] is one of
    the increments covered. *)
Theorem parity_invariant (w0 : Memory) (before after : list Op) (wf : Memory) :
  mut (rw w0) = Unlocked -> Z.even (sequence (rw w0)) = true ->
  run (before ++ after) w0 = Ret tt wf ->
  exists w,
    run before w0 = Ret tt w /\
    writer_ops before = alternation (writer_calls before) /\
    Z.odd (sequence (rw w)) = writer_inside before /\
    is_locked (mut (rw w)) = writer_inside before /\
    parity_inv w = true.
Proof.
  intros Hm He H. apply run_app_inv in H as (w & H1 & _).
  exists w. split; [done |].
  destruct (run_alternates before w0 w Hm He H1) as [Halt _].
  destruct (run_parity before w0 w false) as [Hodd Hlocked];
    [by apply even_not_odd | by rewrite Hm | done |].
  repeat split; try done.
  unfold parity_inv. rewrite Hodd, Hlocked. apply eqb_reflx.
Qed.

Lemma parity_invariant_witness :
  mut (rw (memory_at Unlocked (MaxUint64 - 1) [])) = Unlocked /\
  Z.even (sequence (rw (memory_at Unlocked (MaxUint64 - 1) []))) = true /\
  run ([OpLock; OpRStamp; OpUnlock; OpOk (Ref 0); OpLock] ++ [OpUnlock; OpRStamp])
      (memory_at Unlocked (MaxUint64 - 1) []) =
  Ret tt (memory_at Unlocked 2 [0; 0; 2]) /\
  exists w,
    run [OpLock; OpRStamp; OpUnlock; OpOk (Ref 0); OpLock]
        (memory_at Unlocked (MaxUint64 - 1) []) = Ret tt w /\
    writer_ops [OpLock; OpRStamp; OpUnlock; OpOk (Ref 0); OpLock] =
    alternation (writer_calls [OpLock; OpRStamp; OpUnlock; OpOk (Ref 0); OpLock]) /\
    Z.odd (sequence (rw w)) =
    writer_inside [OpLock; OpRStamp; OpUnlock; OpOk (Ref 0); OpLock] /\
    is_locked (mut (rw w)) =
    writer_inside [OpLock; OpRStamp; OpUnlock; OpOk (Ref 0); OpLock] /\
    parity_inv w = true.
Proof.
  split; [reflexivity |]. split; [reflexivity |]. split; [reflexivity |].
  apply (parity_invariant (memory_at Unlocked (MaxUint64 - 1) [])
           [OpLock; OpRStamp; OpUnlock; OpOk (Ref 0); OpLock]
           [OpUnlock; OpRStamp]
           (memory_at Unlocked 2 [0; 0; 2]));
    reflexivity.
Defined.

(** When [Ok] answers true, no writer holds the lock at that moment. *)
Lemma Ok_true_no_writer_inside (w w' : Memory) (p : StampPtr) :
  parity_inv w = true -> Ok p w = Ret true w' -> mut (rw w) = Unlocked.
Proof.
  unfold parity_inv. intros Hinv H. apply eqb_prop in Hinv.
  destruct p as [|l]; [by rewrite Ok_Nil in H |].
  destruct ((stamps w ++ [sequence (rw w)]) !! l) as [s|] eqn:E.
  - rewrite (Ok_run_scratch w l s E) in H. injection H as Hres _.
    apply Ok_result_true in Hres as [Hodd <-]. rewrite Hodd in Hinv.
    by destruct (mut (rw w)).
  - by rewrite (Ok_crash_scratch w l E) in H.
Qed.










(** C4.  Validation of a stamp captured during a writer.  From any state
    with the mutex free and the sequence even, [Lock; s := RStamp(); Unlock]
    makes the first [Ok(s)] false and the next one true; when the first
    [Ok(s)] is made while the writer is still inside, it is false, the
    first one after [Unlock] is false as well, and the one after that is
    true.  In general a stamp whose value is odd fails its next [Ok] in
    every state [v], which sets it to the sequence; when that sequence is
    even (the writer has left) and only readers run in between, the [Ok]
    after that one returns true. *)
Theorem validate_during_writer (w v : Memory) (l : nat) (s : Stamp) :
  mut (rw w) = Unlocked -> Z.even (sequence (rw w)) = true ->
  stamps v !! l = Some s -> Z.odd s = true ->
  (exists w', WriterArrivesBeforeStampAcquiredAndLeavesBeforeOk w = Ret (false, true) w') /\
  (exists w', WriterLeavesAfterFirstOk w = Ret (false, false, true) w') /\
  (exists v1,
     Ok (Ref l) v = Ret false v1 /\
     stamps v1 !! l = Some (sequence (rw v)) /\
     (Z.even (sequence (rw v)) = true ->
      forall (readers : list Op) (v2 : Memory),
        forallb is_reader_op readers = true -> run readers v1 = Ret tt v2 ->
        exists v3, Ok (Ref l) v2 = Ret true v3)).
Proof.
  intros Hm He Hl Hs. split; [| split].
  - destruct (WriterArrivesBeforeStampAcquiredAndLeavesBeforeOk_run w Hm He)
      as (w' & H & _). by exists w'.
  - by apply WriterLeavesAfterFirstOk_run.
  - destruct (Ok_spec v l s Hl) as (v1 & H & Hrw & Hl1).
    rewrite (Ok_result_odd_stamp _ s Hs) in H, Hl1.
    exists v1. split; [done |]. split; [done |].
    intros Hev readers v2 Hr Hrun. apply even_not_odd in Hev.
    rewrite <- Hrw in Hl1, Hev.
    destruct (readers_keep readers v1 v2 Hr Hrun) as [Hrw2 Hkeep].
    specialize (Hkeep l Hl1). rewrite <- Hrw2 in Hkeep, Hev.
    destruct (Ok_spec v2 l _ Hkeep) as (v3 & H3 & _).
    rewrite Ok_result_same in H3 by done. by exists v3.
Qed.

Lemma validate_during_writer_witness :
  mut (rw (memory_at Unlocked 0 [])) = Unlocked /\
  Z.even (sequence (rw (memory_at Unlocked 0 []))) = true /\
  stamps (memory_at Unlocked 2 [1]) !! 0%nat = Some 1 /\
  Z.odd 1 = true /\
  (exists w',
     WriterArrivesBeforeStampAcquiredAndLeavesBeforeOk (memory_at Unlocked 0 []) =
     Ret (false, true) w') /\
  (exists w',
     WriterLeavesAfterFirstOk (memory_at Unlocked 0 []) = Ret (false, false, true) w') /\
  (exists v1,
     Ok (Ref 0) (memory_at Unlocked 2 [1]) = Ret false v1 /\
     stamps v1 !! 0%nat = Some (sequence (rw (memory_at Unlocked 2 [1]))) /\
     (Z.even (sequence (rw (memory_at Unlocked 2 [1]))) = true ->
      forall (readers : list Op) (v2 : Memory),
        forallb is_reader_op readers = true -> run readers v1 = Ret tt v2 ->
        exists v3, Ok (Ref 0) v2 = Ret true v3)).
Proof.
  split; [reflexivity |]. split; [reflexivity |].
  split; [reflexivity |]. split; [reflexivity |].
  apply (validate_during_writer (memory_at Unlocked 0 []) (memory_at Unlocked 2 [1]) 0 1);
    reflexivity.
Defined.

(** C5.  A writer that has come and gone costs the reader nothing.  After
    any execution that ends with a complete [Lock]/[Unlock] pair, a stamp
    captured by [RStamp] validates at its first [Ok], whatever readers do
    between the two calls, as long as no writer intervenes. *)
Theorem validate_after_departed_writer
    (w0 : Memory) (history : list Op) (w : Memory) (p : StampPtr) (w1 : Memory)
    (readers : list Op) (w2 : Memory) :
  mut (rw w0) = Unlocked -> Z.even (sequence (rw w0)) = true ->
  run (history ++ [OpLock; OpUnlock]) w0 = Ret tt w ->
  RStamp w = Ret p w1 ->
  forallb is_reader_op readers = true -> run readers w1 = Ret tt w2 ->
  exists w3, Ok p w2 = Ret true w3.
Proof.
  intros Hm He Hrun H1 Hr H2.
  destruct (run_parity (history ++ [OpLock; OpUnlock]) w0 w false) as [Hodd _];
    [by apply even_not_odd | by rewrite Hm | exact Hrun |].
  fold (writer_inside (history ++ [OpLock; OpUnlock])) in Hodd.
  rewrite writer_inside_app in Hodd. simpl in Hodd.
  destruct (RStamp_spec w) as (l & w1' & H1' & Hrw1 & Hl1).
  rewrite H1 in H1'. injection H1' as -> <-.
  rewrite <- Hrw1 in Hl1, Hodd.
  destruct (readers_keep readers w1 w2 Hr H2) as [Hrw2 Hkeep].
  specialize (Hkeep l Hl1). rewrite <- Hrw2 in Hkeep, Hodd.
  destruct (Ok_spec w2 l _ Hkeep) as (w3 & H3 & _).
  rewrite Ok_result_same in H3 by done. by exists w3.
Qed.

Lemma validate_after_departed_writer_witness :
  mut (rw (memory_at Unlocked 0 [])) = Unlocked /\
  Z.even (sequence (rw (memory_at Unlocked 0 []))) = true /\
  run ([OpLock; OpRStamp; OpUnlock] ++ [OpLock; OpUnlock]) (memory_at Unlocked 0 []) =
  Ret tt (memory_at Unlocked 4 [1]) /\
  RStamp (memory_at Unlocked 4 [1]) = Ret (Ref 1) (memory_at Unlocked 4 [1; 4]) /\
  forallb is_reader_op [OpRStamp; OpOk (Ref 1)] = true /\
  run [OpRStamp; OpOk (Ref 1)] (memory_at Unlocked 4 [1; 4]) =
  Ret tt (memory_at Unlocked 4 [1; 4; 4; 4]) /\
  exists w3, Ok (Ref 1) (memory_at Unlocked 4 [1; 4; 4; 4]) = Ret true w3.
Proof.
  split; [reflexivity |]. split; [reflexivity |]. split; [reflexivity |].
  split; [reflexivity |]. split; [reflexivity |]. split; [reflexivity |].
  apply (validate_after_departed_writer
           (memory_at Unlocked 0 []) [OpLock; OpRStamp; OpUnlock]
           (memory_at Unlocked 4 [1]) (Ref 1) (memory_at Unlocked 4 [1; 4])
           [OpRStamp; OpOk (Ref 1)] (memory_at Unlocked 4 [1; 4; 4; 4]));
    reflexivity.
Defined.

(** C10.  A successful [Ok] leaves the stamp as it was (only a failed one
    overwrites it), and the lock as well; so the next [Ok] on the same
    stamp, with nothing but readers in between, is true again and again
    leaves the stamp alone. *)
Theorem Ok_true_leaves_stamp
    (w : Memory) (l : nat) (s : Stamp) (w1 : Memory) (readers : list Op)
    (w2 : Memory) :
  stamps w !! l = Some s -> Ok (Ref l) w = Ret true w1 ->
  forallb is_reader_op readers = true -> run readers w1 = Ret tt w2 ->
  stamps w1 !! l = Some s /\
  rw w1 = rw w /\
  exists w3, Ok (Ref l) w2 = Ret true w3 /\ stamps w3 !! l = Some s.
Proof.
  intros Hl H Hr Hrun.
  destruct (Ok_spec w l s Hl) as (w1' & H' & Hrw1 & Hl1).
  rewrite H in H'. injection H' as Hres <-. rewrite <- Hres in Hl1.
  symmetry in Hres. apply Ok_result_true in Hres as [Hodd Hsame].
  split; [done |]. split; [done |].
  rewrite <- Hsame, <- Hrw1 in Hl1, Hodd.
  destruct (readers_keep readers w1 w2 Hr Hrun) as [Hrw2 Hkeep].
  specialize (Hkeep l Hl1). rewrite <- Hrw2 in Hkeep, Hodd.
  destruct (Ok_spec w2 l _ Hkeep) as (w3 & H3 & _ & Hl3).
  rewrite Ok_result_same in H3, Hl3 by done.
  exists w3. split; [done |]. by rewrite Hl3, Hrw2, Hrw1, Hsame.
Qed.

Lemma Ok_true_leaves_stamp_witness :
  stamps (memory_at Unlocked 6 [6; 3]) !! 0%nat = Some 6 /\
  Ok (Ref 0) (memory_at Unlocked 6 [6; 3]) = Ret true (memory_at Unlocked 6 [6; 3; 6]) /\
  forallb is_reader_op [OpOk (Ref 1); OpRStamp] = true /\
  run [OpOk (Ref 1); OpRStamp] (memory_at Unlocked 6 [6; 3; 6]) =
  Ret tt (memory_at Unlocked 6 [6; 6; 6; 6; 6]) /\
  stamps (memory_at Unlocked 6 [6; 3; 6]) !! 0%nat = Some 6 /\
  rw (memory_at Unlocked 6 [6; 3; 6]) = rw (memory_at Unlocked 6 [6; 3]) /\
  exists w3, Ok (Ref 0) (memory_at Unlocked 6 [6; 6; 6; 6; 6]) = Ret true w3 /\
             stamps w3 !! 0%nat = Some 6.
Proof.
  split; [reflexivity |]. split; [reflexivity |].
  split; [reflexivity |]. split; [reflexivity |].
  apply (Ok_true_leaves_stamp
           (memory_at Unlocked 6 [6; 3]) 0 6 (memory_at Unlocked 6 [6; 3; 6])
           [OpOk (Ref 1); OpRStamp] (memory_at Unlocked 6 [6; 6; 6; 6; 6]));
    reflexivity.
Defined.

(** C6.  Wraparound.  The sequence is a [uint64] and every increment is
    taken modulo [2^64].  From the largest even value, [2^64 - 2], [Lock]
    gives [2^64 - 1], which is odd, and [Unlock] wraps to [0]; the parity
    invariant holds before, inside and after; and [Ok] answers across the
    wrap as it does anywhere else: false for a stamp captured before the
    writer came, false then true for a stamp captured while it was inside,
    true for a stamp captured after it left. *)
Theorem wraparound_safety (h : list Stamp) :
  MaxUint64 = 18446744073709551615 /\
  (forall (w : Memory) (delta : Z),
     sequence (rw (final_memory (atomic_AddUint64 delta w))) =
     (sequence (rw w) + delta) mod 2 ^ 64 /\
     is_uint64 (sequence (rw (final_memory (atomic_AddUint64 delta w))))) /\
  Lock (memory_at Unlocked (MaxUint64 - 1) h) = Ret tt (memory_at Locked MaxUint64 h) /\
  Z.odd MaxUint64 = true /\
  Unlock (memory_at Locked MaxUint64 h) = Ret tt (memory_at Unlocked 0 h) /\
  parity_inv (memory_at Unlocked (MaxUint64 - 1) h) = true /\
  parity_inv (memory_at Locked MaxUint64 h) = true /\
  parity_inv (memory_at Unlocked 0 h) = true /\
  (exists w',
     WriterComesAndGoesBeforeOk (memory_at Unlocked (MaxUint64 - 1) h) = Ret false w') /\
  (exists w',
     WriterArrivesBeforeStampAcquiredAndLeavesBeforeOk
       (memory_at Unlocked (MaxUint64 - 1) h) = Ret (false, true) w') /\
  (exists w',
     WriterLeavesBeforeStampAcquired (memory_at Unlocked (MaxUint64 - 1) h) = Ret true w').
Proof.
  split; [reflexivity |]. split.
  { intros w delta. split; [reflexivity | apply wrap64_range]. }
  split; [reflexivity |]. split; [reflexivity |]. split; [reflexivity |].
  split; [reflexivity |]. split; [reflexivity |]. split; [reflexivity |].
  split; [| split].
  - apply WriterComesAndGoesBeforeOk_run; [reflexivity |].
    unfold is_uint64, MaxUint64, two64. simpl. lia.
  - destruct (WriterArrivesBeforeStampAcquiredAndLeavesBeforeOk_run
                (memory_at Unlocked (MaxUint64 - 1) h)) as (w' & H & _);
      [reflexivity .. |]. by exists w'.
  - apply WriterLeavesBeforeStampAcquired_run; reflexivity.
Qed.

(** C7.  Who writes what.  [RStamp] and [Ok] leave the lock, sequence and
    mutex, exactly as it was, for every memory and every pointer, also when
    [Ok] stops on a nil pointer.  [Lock] and [Unlock] each add exactly one to
    the sequence modulo [2^64], so a [Lock]/[Unlock] pair adds two; a [Lock]
    that finds the mutex held parks before its increment and changes
    nothing. *)
Theorem only_writers_mutate_sequence
    (m : Mutex) (s : Z) (h : list Stamp) (p : StampPtr) :
  rw (final_memory (RStamp (memory_at m s h))) = rw (memory_at m s h) /\
  rw (final_memory (Ok p (memory_at m s h))) = rw (memory_at m s h) /\
  Lock (memory_at Unlocked s h) = Ret tt (memory_at Locked (wrap64 (s + 1)) h) /\
  Lock (memory_at Locked s h) = Blocked (memory_at Locked s h) /\
  Unlock (memory_at Locked s h) = Ret tt (memory_at Unlocked (wrap64 (s + 1)) h) /\
  (Lock;; Unlock) (memory_at Unlocked s h) =
  Ret tt (memory_at Unlocked (wrap64 (s + 2)) h).
Proof.
  split; [apply RStamp_rw |]. split; [apply Ok_rw |].
  split; [reflexivity |]. split; [reflexivity |]. split; [reflexivity |].
  erewrite bind_Ret by reflexivity.
  rewrite Unlock_run by reflexivity. simpl.
  unfold memory_at. rewrite wrap64_add_l. do 4 f_equal. lia.
Qed.

(** C8, as the specification has it, fails: on a new lock, whose mutex is
    free and whose sequence is [0], [Unlock] does stop in the run-time
    error, but the sequence has been changed before: at the error it is
    [1], odd with no writer inside. *)
Lemma Unlock_without_Lock_breaks_parity :
  mut (rw (memory_at Unlocked 0 [])) = Unlocked /\
  Z.even (sequence (rw (memory_at Unlocked 0 []))) = true /\
  exists w',
    Unlock (memory_at Unlocked 0 []) = Crash UnlockOfUnlockedMutex w' /\
    sequence (rw w') = 1 /\
    sequence (rw w') <> sequence (rw (memory_at Unlocked 0 [])) /\
    Z.odd (sequence (rw w')) = true.
Proof.
  split; [reflexivity |]. split; [reflexivity |].
  eexists. split; [reflexivity |]. simpl. split; [reflexivity |].
  split; [discriminate | reflexivity].
Qed.

(** C8, amended.  [Unlock] on a free mutex, which no writer holds, stops in
    the mutex's run-time error, after it has added one to the sequence: at
    the error the sequence is the old one plus one modulo [2^64] and its
    parity is flipped, so that a sequence that was even is left odd with no
    writer inside; the stamps are as they were. *)
Theorem Unlock_without_Lock_crashes_after_increment (w : Memory) :
  mut (rw w) = Unlocked ->
  exists w',
    Unlock w = Crash UnlockOfUnlockedMutex w' /\
    sequence (rw w') = (sequence (rw w) + 1) mod 2 ^ 64 /\
    stamps w' = stamps w /\
    Z.odd (sequence (rw w')) = negb (Z.odd (sequence (rw w))) /\
    (Z.even (sequence (rw w)) = true -> Z.odd (sequence (rw w')) = true).
Proof.
  intros Hm. eexists. split; [by apply Unlock_crash |]. simpl.
  split; [reflexivity |]. split; [reflexivity |].
  split; [apply odd_wrap64_succ |].
  intros He. rewrite odd_wrap64_succ, (even_not_odd _ He). reflexivity.
Qed.

Lemma Unlock_without_Lock_crashes_after_increment_witness :
  mut (rw (memory_at Unlocked 8 [8])) = Unlocked /\
  exists w',
    Unlock (memory_at Unlocked 8 [8]) = Crash UnlockOfUnlockedMutex w' /\
    sequence (rw w') = (sequence (rw (memory_at Unlocked 8 [8])) + 1) mod 2 ^ 64 /\
    stamps w' = stamps (memory_at Unlocked 8 [8]) /\
    Z.odd (sequence (rw w')) = negb (Z.odd (sequence (rw (memory_at Unlocked 8 [8])))) /\
    (Z.even (sequence (rw (memory_at Unlocked 8 [8]))) = true ->
     Z.odd (sequence (rw w')) = true).
Proof.
  split; [reflexivity |].
  apply (Unlock_without_Lock_crashes_after_increment (memory_at Unlocked 8 [8])).
  reflexivity.
Defined.

(** C9.  Writers exclude one another.  Let any number of goroutines each
    run [rw.Lock(); ...; rw.Unlock()] over and over on a lock whose mutex is
    free, their atomic actions interleaved in any order.  The program never
    stops in a run-time error, and in every configuration it reaches at most
    one goroutine is between the return of its [Lock] and its [Unlock]; more
    than that, a goroutine that is anywhere between taking and releasing the
    mutex is the only one there, and the mutex is held. *)
Theorem writers_mutually_exclusive (n : nat) (w : Memory) (schedule : list nat) :
  mut (rw w) = Unlocked ->
  exists c,
    exec schedule (init n w) = Some c /\
    (forall t1 t2, pcs c !! t1 = Some InCS -> pcs c !! t2 = Some InCS -> t1 = t2) /\
    (forall t1 p1 t2 p2,
       pcs c !! t1 = Some p1 -> p1 <> Idle ->
       pcs c !! t2 = Some p2 -> p2 <> Idle ->
       t1 = t2 /\ mut (rw (mem c)) = Locked).
Proof.
  intros Hm.
  destruct (exec_exclusion_inv _ schedule _ (exclusion_inv_init n w Hm))
    as (c & Hc & Hinv).
  exists c. split; [done |].
  assert (Hone : forall t1 p1 t2 p2,
             pcs c !! t1 = Some p1 -> p1 <> Idle ->
             pcs c !! t2 = Some p2 -> p2 <> Idle ->
             t1 = t2 /\ mut (rw (mem c)) = Locked).
  { intros t1 p1 t2 p2 H1 Hp1 H2 Hp2.
    destruct (exclusion_inv_holder _ c t1 p1 Hinv H1 Hp1) as (Hlocked & Hothers & _).
    split; [| done]. destruct (decide (t2 = t1)) as [->|Hne]; [done |].
    by specialize (Hothers t2 p2 H2 Hne). }
  split; [| exact Hone].
  intros t1 t2 H1 H2. by destruct (Hone t1 InCS t2 InCS H1 ltac:(done) H2 ltac:(done)).
Qed.

Lemma writers_mutually_exclusive_witness :
  mut (rw (memory_at Unlocked (MaxUint64 - 1) [])) = Unlocked /\
  exists c,
    exec [0; 1; 0; 2; 1; 0; 0; 1; 2; 1]%nat (init 3 (memory_at Unlocked (MaxUint64 - 1) []))
    = Some c /\
    (forall t1 t2, pcs c !! t1 = Some InCS -> pcs c !! t2 = Some InCS -> t1 = t2) /\
    (forall t1 p1 t2 p2,
       pcs c !! t1 = Some p1 -> p1 <> Idle ->
       pcs c !! t2 = Some p2 -> p2 <> Idle ->
       t1 = t2 /\ mut (rw (mem c)) = Locked).
Proof.
  split; [reflexivity |].
  apply (writers_mutually_exclusive 3 (memory_at Unlocked (MaxUint64 - 1) [])
           [0; 1; 0; 2; 1; 0; 0; 1; 2; 1]%nat).
  reflexivity.
Defined.

(** ** Further properties of the code *)

(** *** The retry loop *)

Lemma retry_succ {A : Type} (fuel : nat) (critical : M A) (stamp : StampPtr)
    (w w1 w2 : Memory) (a : A) (ok : bool) :
  critical w = Ret a w1 -> Ok stamp w1 = Ret ok w2 ->
  retry (S fuel) critical stamp w =
  if ok then Ret (Some a) w2 else retry fuel critical stamp w2.
Proof.
  intros H1 H2. simpl. run_with H1. run_with H2. by destruct ok.
Qed.

(** X1.  The reader's guarantee.  Capture a stamp with [RStamp], let any
    calls follow that all return and do not validate that stamp, then
    validate it.  If [Ok] returns true, the sequence was even when the stamp
    was captured, it has the same value now, and, unless [2^64] or more
    calls of [Lock] and [Unlock] were made in between, none was made at
    all: the reader's critical section ran with no writer inside. *)
Theorem validated_read_saw_no_writer
    (w w1 w2 w3 : Memory) (l : nat) (window : list Op) :
  is_uint64 (sequence (rw w)) ->
  RStamp w = Ret (Ref l) w1 ->
  validates l window = false ->
  run window w1 = Ret tt w2 ->
  Ok (Ref l) w2 = Ret true w3 ->
  Z.odd (sequence (rw w)) = false /\
  sequence (rw w2) = sequence (rw w) /\
  (Z.of_nat (writer_calls window) < two64 -> writer_calls window = 0%nat).
Proof. apply Ok_true_window. Qed.

Lemma validated_read_saw_no_writer_witness :
  is_uint64 (sequence (rw (memory_at Unlocked 4 [3]))) /\
  RStamp (memory_at Unlocked 4 [3]) = Ret (Ref 1) (memory_at Unlocked 4 [3; 4]) /\
  validates 1 [OpRStamp; OpOk (Ref 0)] = false /\
  run [OpRStamp; OpOk (Ref 0)] (memory_at Unlocked 4 [3; 4]) =
  Ret tt (memory_at Unlocked 4 [4; 4; 4; 4]) /\
  Ok (Ref 1) (memory_at Unlocked 4 [4; 4; 4; 4]) =
  Ret true (memory_at Unlocked 4 [4; 4; 4; 4; 4]) /\
  Z.odd (sequence (rw (memory_at Unlocked 4 [3]))) = false /\
  sequence (rw (memory_at Unlocked 4 [4; 4; 4; 4])) =
  sequence (rw (memory_at Unlocked 4 [3])) /\
  (Z.of_nat (writer_calls [OpRStamp; OpOk (Ref 0)]) < two64 ->
   writer_calls [OpRStamp; OpOk (Ref 0)] = 0%nat).
Proof.
  split; [by vm_compute |]. split; [reflexivity |]. split; [reflexivity |].
  split; [reflexivity |]. split; [reflexivity |].
  apply (validated_read_saw_no_writer
           (memory_at Unlocked 4 [3]) (memory_at Unlocked 4 [3; 4])
           (memory_at Unlocked 4 [4; 4; 4; 4]) (memory_at Unlocked 4 [4; 4; 4; 4; 4])
           1 [OpRStamp; OpOk (Ref 0)]);
    [by vm_compute | reflexivity ..].
Defined.

(** X2.  The limit of that guarantee.  The sequence has 64 bits: a stamp
    captured with no writer inside validates again after exactly [2^63]
    complete critical sections of writers, as if nothing had happened. *)
Theorem stale_stamp_validates_after_full_cycle (w : Memory) :
  mut (rw w) = Unlocked -> Z.even (sequence (rw w)) = true ->
  is_uint64 (sequence (rw w)) ->
  exists w',
    (stamp ← RStamp; critical_sections (Z.to_nat (2 ^ 63));; Ok stamp) w = Ret true w'.
Proof.
  apply stamp_validates_after_full_cycle. apply Z2Nat.id. lia.
Qed.

Lemma stale_stamp_validates_after_full_cycle_witness :
  mut (rw (memory_at Unlocked 0 [])) = Unlocked /\
  Z.even (sequence (rw (memory_at Unlocked 0 []))) = true /\
  is_uint64 (sequence (rw (memory_at Unlocked 0 []))) /\
  exists w',
    (stamp ← RStamp; critical_sections (Z.to_nat (2 ^ 63));; Ok stamp)
      (memory_at Unlocked 0 []) = Ret true w'.
Proof.
  split; [reflexivity |]. split; [reflexivity |].
  assert (Hr : is_uint64 (sequence (rw (memory_at Unlocked 0 [])))).
  { split; [discriminate | reflexivity]. }
  split; [exact Hr |].
  apply (stale_stamp_validates_after_full_cycle (memory_at Unlocked 0 []));
    [reflexivity | reflexivity | exact Hr].
Defined.

(** X3.  The sequence counts the writers' calls.  In every execution in
    which every call returns, whatever readers do, the sequence ends at its
    start value plus the number of [Lock] and [Unlock] calls, modulo
    [2^64]. *)
Theorem sequence_counts_writer_calls (ops : list Op) (w w' : Memory) :
  is_uint64 (sequence (rw w)) -> run ops w = Ret tt w' ->
  sequence (rw w') = (sequence (rw w) + Z.of_nat (writer_calls ops)) mod 2 ^ 64.
Proof. apply run_sequence. Qed.

Lemma sequence_counts_writer_calls_witness :
  is_uint64 (sequence (rw (memory_at Unlocked (MaxUint64 - 1) []))) /\
  run [OpRStamp; OpLock; OpOk (Ref 0); OpUnlock; OpLock]
      (memory_at Unlocked (MaxUint64 - 1) []) =
  Ret tt (memory_at Locked 1 [MaxUint64; MaxUint64]) /\
  sequence (rw (memory_at Locked 1 [MaxUint64; MaxUint64])) =
  (sequence (rw (memory_at Unlocked (MaxUint64 - 1) [])) +
   Z.of_nat (writer_calls [OpRStamp; OpLock; OpOk (Ref 0); OpUnlock; OpLock])) mod 2 ^ 64.
Proof.
  assert (Hr : is_uint64 (sequence (rw (memory_at Unlocked (MaxUint64 - 1) [])))).
  { split; [discriminate | reflexivity]. }
  split; [exact Hr |]. split; [reflexivity |].
  apply (sequence_counts_writer_calls
           [OpRStamp; OpLock; OpOk (Ref 0); OpUnlock; OpLock]
           (memory_at Unlocked (MaxUint64 - 1) [])
           (memory_at Locked 1 [MaxUint64; MaxUint64]));
    [exact Hr | reflexivity].
Defined.

(** X4.  With no writer inside (the sequence is even) a reader whose
    critical section only reads is done at its first attempt, whatever the
    number of attempts it is allowed, and leaves the lock as it was. *)
Theorem OptimisticRead_first_attempt
    {A : Type} (critical : M A) (fuel : nat) (w : Memory) :
  read_only critical -> Z.even (sequence (rw w)) = true ->
  exists a w', OptimisticRead (S fuel) critical w = Ret (Some a) w' /\ rw w' = rw w.
Proof.
  intros Hread He. apply even_not_odd in He.
  destruct (RStamp_spec w) as (l & w1 & H1 & Hrw1 & Hl1).
  destruct (Hread w1) as [a Ha].
  destruct (Ok_spec w1 l _ Hl1) as (w2 & H2 & Hrw2 & _).
  rewrite Hrw1, Ok_result_same in H2 by done.
  exists a, w2. split; [| congruence].
  unfold OptimisticRead. run_with H1. by rewrite (retry_succ _ _ _ _ _ _ _ _ Ha H2).
Qed.

Lemma OptimisticRead_first_attempt_witness :
  read_only (mret 7 : M Z) /\
  Z.even (sequence (rw (memory_at Unlocked 2 []))) = true /\
  exists a w',
    OptimisticRead 1 (mret 7 : M Z) (memory_at Unlocked 2 []) = Ret (Some a) w' /\
    rw w' = rw (memory_at Unlocked 2 []).
Proof.
  assert (Hread : read_only (mret 7 : M Z)) by (intros w; by exists 7).
  split; [exact Hread |]. split; [reflexivity |].
  apply (OptimisticRead_first_attempt (mret 7 : M Z) 0 (memory_at Unlocked 2 []));
    [exact Hread | reflexivity].
Defined.

(** X5.  With no writer inside, a reader that arrives with a stamp that is
    odd or out of date needs exactly two attempts: the first fails and
    brings the stamp up to date, the second succeeds. *)
Theorem retry_stale_stamp_two_attempts
    {A : Type} (critical : M A) (fuel : nat) (w : Memory) (l : nat) (s : Stamp) :
  read_only critical -> Z.even (sequence (rw w)) = true ->
  stamps w !! l = Some s -> Ok_result (sequence (rw w)) s = false ->
  (exists w1, retry 1 critical (Ref l) w = Ret None w1 /\
              stamps w1 !! l = Some (sequence (rw w))) /\
  (exists a w2, retry (S (S fuel)) critical (Ref l) w = Ret (Some a) w2 /\
                rw w2 = rw w).
Proof.
  intros Hread He Hl Hres. apply even_not_odd in He.
  destruct (Hread w) as [a Ha].
  destruct (Ok_spec w l s Hl) as (w1 & H1 & Hrw1 & Hl1).
  rewrite Hres in H1, Hl1.
  destruct (Hread w1) as [a1 Ha1].
  rewrite <- Hrw1 in Hl1.
  destruct (Ok_spec w1 l _ Hl1) as (w2 & H2 & Hrw2 & _).
  rewrite Ok_result_same in H2 by (by rewrite Hrw1).
  split.
  - exists w1. rewrite (retry_succ _ _ _ _ _ _ _ _ Ha H1). split; [done |].
    by rewrite <- Hrw1.
  - exists a1, w2. rewrite (retry_succ _ _ _ _ _ _ _ _ Ha H1).
    rewrite (retry_succ _ _ _ _ _ _ _ _ Ha1 H2). split; [done | congruence].
Qed.

Lemma retry_stale_stamp_two_attempts_witness :
  read_only (mret 7 : M Z) /\
  Z.even (sequence (rw (memory_at Unlocked 4 [2]))) = true /\
  stamps (memory_at Unlocked 4 [2]) !! 0%nat = Some 2 /\
  Ok_result (sequence (rw (memory_at Unlocked 4 [2]))) 2 = false /\
  (exists w1, retry 1 (mret 7 : M Z) (Ref 0) (memory_at Unlocked 4 [2]) = Ret None w1 /\
              stamps w1 !! 0%nat = Some (sequence (rw (memory_at Unlocked 4 [2])))) /\
  (exists a w2, retry 2 (mret 7 : M Z) (Ref 0) (memory_at Unlocked 4 [2]) = Ret (Some a) w2 /\
                rw w2 = rw (memory_at Unlocked 4 [2])).
Proof.
  assert (Hread : read_only (mret 7 : M Z)) by (intros w; by exists 7).
  split; [exact Hread |]. split; [reflexivity |].
  split; [reflexivity |]. split; [reflexivity |].
  apply (retry_stale_stamp_two_attempts (mret 7 : M Z) 0 (memory_at Unlocked 4 [2]) 0 2);
    [exact Hread | reflexivity ..].
Defined.

(** X6.  While a writer is inside (the sequence is odd) the loop cannot
    end: however many attempts a reader is given, on whatever stamp, every
    one fails, and the lock is left as it was. *)
Theorem retry_spins_while_writer_inside
    {A : Type} (critical : M A) (fuel : nat) (w : Memory) (l : nat) (s : Stamp) :
  read_only critical -> Z.odd (sequence (rw w)) = true ->
  stamps w !! l = Some s ->
  exists w', retry fuel critical (Ref l) w = Ret None w' /\ rw w' = rw w.
Proof.
  intros Hread. revert w s. induction fuel as [|fuel IH]; intros w s Hodd Hl.
  - by exists w.
  - destruct (Hread w) as [a Ha].
    destruct (Ok_spec w l s Hl) as (w1 & H1 & Hrw1 & Hl1).
    rewrite (Ok_result_odd_sequence _ s Hodd) in H1, Hl1.
    destruct (IH w1 _ ltac:(by rewrite Hrw1) Hl1) as (w' & H' & Hrw').
    exists w'. rewrite (retry_succ _ _ _ _ _ _ _ _ Ha H1). split; [done | congruence].
Qed.

Lemma retry_spins_while_writer_inside_witness :
  read_only (mret 7 : M Z) /\
  Z.odd (sequence (rw (memory_at Locked 3 [2]))) = true /\
  stamps (memory_at Locked 3 [2]) !! 0%nat = Some 2 /\
  exists w', retry 1000 (mret 7 : M Z) (Ref 0) (memory_at Locked 3 [2]) = Ret None w' /\
             rw w' = rw (memory_at Locked 3 [2]).
Proof.
  assert (Hread : read_only (mret 7 : M Z)) by (intros w; by exists 7).
  split; [exact Hread |]. split; [reflexivity |]. split; [reflexivity |].
  apply (retry_spins_while_writer_inside (mret 7 : M Z) 1000 (memory_at Locked 3 [2]) 0 2);
    [exact Hread | reflexivity ..].
Defined.

(** X7.  [Ok] writes no stamp but the one it is given: every other stamp of
    the store keeps its value, whether [Ok] answers true or false, and so
    does the lock.  One reader's failed validation never disturbs another
    reader's stamp. *)
Theorem Ok_touches_only_its_stamp
    (p : StampPtr) (w w' : Memory) (ok : bool) (l : nat) (v : Stamp) :
  stamps w !! l = Some v -> p <> Ref l -> Ok p w = Ret ok w' ->
  stamps w' !! l = Some v /\ rw w' = rw w.
Proof.
  intros Hl Hp H. split; [by eapply Ok_frame | by eapply Ok_Ret_rw].
Qed.

Lemma Ok_touches_only_its_stamp_witness :
  stamps (memory_at Unlocked 4 [1; 2]) !! 1%nat = Some 2 /\
  Ref 0 <> Ref 1 /\
  Ok (Ref 0) (memory_at Unlocked 4 [1; 2]) = Ret false (memory_at Unlocked 4 [4; 2; 4]) /\
  stamps (memory_at Unlocked 4 [4; 2; 4]) !! 1%nat = Some 2 /\
  rw (memory_at Unlocked 4 [4; 2; 4]) = rw (memory_at Unlocked 4 [1; 2]).
Proof.
  split; [reflexivity |]. split; [discriminate |]. split; [reflexivity |].
  apply (Ok_touches_only_its_stamp (Ref 0) (memory_at Unlocked 4 [1; 2])
           (memory_at Unlocked 4 [4; 2; 4]) false 1 2);
    [reflexivity | discriminate | reflexivity].
Defined.

(** X8.  [Lock] is not reentrant: a goroutine that calls [Lock] twice parks
    for ever in the second call, and the first call's increment stays: the
    sequence is left odd, so no reader can validate any more. *)
Theorem Lock_is_not_reentrant (w : Memory) :
  mut (rw w) = Unlocked ->
  (Lock;; Lock) w =
  Blocked (memory_at Locked (wrap64 (sequence (rw w) + 1)) (stamps w)) /\
  (Z.even (sequence (rw w)) = true ->
   forall (l : nat) (s : Stamp), stamps w !! l = Some s ->
     exists w', Ok (Ref l) (final_memory ((Lock;; Lock) w)) = Ret false w').
Proof.
  intros Hm.
  assert (H : (Lock;; Lock) w =
              Blocked (memory_at Locked (wrap64 (sequence (rw w) + 1)) (stamps w))).
  { erewrite bind_Ret by (by apply Lock_run). by rewrite Lock_blocked. }
  split; [exact H |]. rewrite H. simpl.
  intros He l s Hl. apply even_not_odd in He.
  destruct (Ok_spec (memory_at Locked (wrap64 (sequence (rw w) + 1)) (stamps w)) l s Hl)
    as (w' & H' & _).
  rewrite Ok_result_odd_sequence in H'; [by exists w' |].
  simpl. by rewrite odd_wrap64_succ, He.
Qed.

Lemma Lock_is_not_reentrant_witness :
  mut (rw (memory_at Unlocked 0 [0])) = Unlocked /\
  (Lock;; Lock) (memory_at Unlocked 0 [0]) =
  Blocked (memory_at Locked (wrap64 (0 + 1)) [0]) /\
  (Z.even (sequence (rw (memory_at Unlocked 0 [0]))) = true ->
   forall (l : nat) (s : Stamp), stamps (memory_at Unlocked 0 [0]) !! l = Some s ->
     exists w',
       Ok (Ref l) (final_memory ((Lock;; Lock) (memory_at Unlocked 0 [0]))) = Ret false w').
Proof.
  split; [reflexivity |].
  apply (Lock_is_not_reentrant (memory_at Unlocked 0 [0])). reflexivity.
Defined.

(** *** [HammerRWMutex] *)

Lemma total_insert {A : Type} (f : A -> Z) (l : list A) (t : nat) (a a' : A) :
  l !! t = Some a -> total f (<[t := a']> l) = total f l - f a + f a'.
Proof.
  revert t. induction l as [|x l IH]; intros [|t] H; try discriminate; simpl in *.
  - injection H as ->. lia.
  - rewrite (IH t H). lia.
Qed.

Lemma total_app {A : Type} (f : A -> Z) (l1 l2 : list A) :
  total f (l1 ++ l2) = total f l1 + total f l2.
Proof. induction l1 as [|x l1 IH]; simpl; [done |]. rewrite IH. lia. Qed.

Lemma total_replicate {A : Type} (f : A -> Z) (n : nat) (a : A) :
  total f (replicate n a) = Z.of_nat n * f a.
Proof. induction n as [|n IH]; simpl; [done |]. rewrite IH. lia. Qed.

Lemma total_le {A : Type} (f g : A -> Z) (l : list A) :
  (forall t a, l !! t = Some a -> f a <= g a) -> total f l <= total g l.
Proof.
  induction l as [|x l IH]; intros H; simpl; [done |].
  specialize (H 0%nat x eq_refl) as Hx.
  assert (total f l <= total g l) by (apply IH; intros t a Ht; exact (H (S t) a Ht)).
  lia.
Qed.

Lemma total_eq_pointwise {A : Type} (f g : A -> Z) (l : list A) :
  (forall t a, l !! t = Some a -> f a <= g a) -> total f l = total g l ->
  forall t a, l !! t = Some a -> f a = g a.
Proof.
  induction l as [|x l IH]; intros H Heq t a Ht; [done |].
  simpl in Heq.
  specialize (H 0%nat x eq_refl) as Hx.
  assert (Hl : forall t a, l !! t = Some a -> f a <= g a)
    by (intros t' a' Ht'; exact (H (S t') a' Ht')).
  pose proof (total_le f g l Hl).
  destruct t as [|t]; simpl in Ht.
  - injection Ht as <-. lia.
  - apply (IH Hl ltac:(lia) t a Ht).
Qed.

Lemma lookup_insert_other {A : Type} (l : list A) (t t' : nat) (a a' : A) :
  <[t := a]> l !! t' = Some a' -> t' <> t -> l !! t' = Some a'.
Proof. intros H Hne. by rewrite list_lookup_insert_ne in H. Qed.

Lemma lookup_insert_same {A : Type} (l : list A) (t : nat) (a a' : A) :
  <[t := a]> l !! t = Some a' -> a' = a.
Proof.
  intros H. apply list_lookup_insert_Some in H as [(_ & -> & _)|[Hne _]]; done.
Qed.

Lemma wrap_int_small (z : Z) : - 2 ^ 63 <= z < 2 ^ 63 -> wrap_int z = z.
Proof. intros H. unfold wrap_int. rewrite Z.mod_small; lia. Qed.

Lemma wrap_int_range (z : Z) : - 2 ^ 63 <= wrap_int z < 2 ^ 63.
Proof.
  unfold wrap_int. pose proof (Z.mod_pos_bound (z + 2 ^ 63) (2 ^ 64) ltac:(lia)). lia.
Qed.

Section Hammer.

Variables (seq0 N num expected : Z).
Hypothesis HN : N = Z.max 0 num.
Hypothesis Hbound : 4 * N < 2 ^ 64.
Hypothesis Hseq0 : Z.odd seq0 = false.
Hypothesis Hexpected : expected < 2 ^ 63.

Lemma done_incs_le (g : Goroutine) :
  writer_wf N num g -> 0 <= done_incs g <= all_incs N g.
Proof.
  destruct g as [i place|i place]; simpl; [| lia].
  intros (Hi & Hin & _). destruct place; try lia;
    (assert (i < num) by (by apply Hin); lia).
Qed.

Lemma increments_range (c : Hammer) :
  writers_inv seq0 N num c -> 0 <= increments c <= 4 * N.
Proof.
  intros Hinv. rewrite <- (inv_all _ _ _ _ Hinv). unfold increments. split.
  - transitivity (total (fun _ : Goroutine => 0) (goroutines c)).
    + clear. induction (goroutines c); simpl; lia.
    + apply total_le. intros t g Hg.
      apply done_incs_le. by eapply inv_wf.
  - apply total_le. intros t g Hg. apply done_incs_le. by eapply inv_wf.
Qed.

(** The goroutine that holds the mutex. *)
Lemma writers_inv_holder (c : Hammer) (t : nat) (g : Goroutine) :
  writers_inv seq0 N num c -> goroutines c !! t = Some g -> holding g = true ->
  mut (rw (hmem c)) = Locked /\
  (forall t' g', goroutines c !! t' = Some g' -> t' <> t -> holding g' = false) /\
  activity c = (if active g then 10000 else 0) /\
  Z.odd (increments c) = in_cs g.
Proof.
  intros Hinv Ht Hg. pose proof (inv_holder _ _ _ _ Hinv) as H.
  destruct (mut (rw (hmem c))).
  - destruct H as [Hall _]. rewrite (Hall t g Ht) in Hg. discriminate.
  - destruct H as (t0 & g0 & Ht0 & Hg0 & Hothers & Hact & Hodd).
    destruct (decide (t = t0)) as [->|Hne].
    + rewrite Ht in Ht0. injection Ht0 as <-. done.
    + rewrite (Hothers t g Ht Hne) in Hg. discriminate.
Qed.

(** No goroutine holds the mutex: [activity] is zero and the number of
    increments is even. *)
Lemma writers_inv_activity (c : Hammer) :
  writers_inv seq0 N num c ->
  activity c = 0 \/ (activity c = 10000 /\ Z.odd (increments c) = true).
Proof.
  intros Hinv. pose proof (inv_holder _ _ _ _ Hinv) as H.
  destruct (mut (rw (hmem c))).
  - left. tauto.
  - destruct H as (t0 & g0 & _ & _ & _ & Hact & Hodd).
    destruct g0 as [i []|]; simpl in *; tauto.
Qed.

(** A goroutine that does not hold the mutex moves on without touching
    the lock or [activity]. *)
Lemma writers_inv_neutral (c : Hammer) (w : Memory) (r : Z) (t : nat)
    (g g' : Goroutine) :
  writers_inv seq0 N num c -> goroutines c !! t = Some g ->
  rw w = rw (hmem c) ->
  done_incs g' = done_incs g -> all_incs N g' = all_incs N g ->
  holding g = false -> holding g' = false -> writer_wf N num g' ->
  writers_inv seq0 N num
    {| hmem := w; activity := activity c; received := r;
       goroutines := <[t := g']> (goroutines c) |}.
Proof.
  intros Hinv Ht Hrw Hd Ha Hg Hg' Hwf.
  assert (Hincs : increments {| hmem := w; activity := activity c; received := r;
                                 goroutines := <[t := g']> (goroutines c) |}
                  = increments c).
  { unfold increments. simpl. rewrite (total_insert _ _ _ _ _ Ht). lia. }
  split.
  - rewrite Hincs. simpl. rewrite Hrw. apply (inv_sequence _ _ _ _ Hinv).
  - simpl. intros t' g'' H'. destruct (decide (t' = t)) as [->|Hne].
    + by rewrite (lookup_insert_same _ _ _ _ H').
    + eapply inv_wf; [exact Hinv |]. by eapply lookup_insert_other.
  - simpl. rewrite (total_insert _ _ _ _ _ Ht), Ha.
    rewrite (inv_all _ _ _ _ Hinv). lia.
  - rewrite Hincs. simpl. rewrite Hrw.
    pose proof (inv_holder _ _ _ _ Hinv) as H.
    destruct (mut (rw (hmem c))).
    + destruct H as (Hall & Hact & Hodd). split; [| done].
      intros t' g'' H'. destruct (decide (t' = t)) as [->|Hne].
      * by rewrite (lookup_insert_same _ _ _ _ H').
      * eapply Hall. by eapply lookup_insert_other.
    + destruct H as (t0 & g0 & Ht0 & Hg0 & Hothers & Hact & Hodd).
      assert (Hne0 : t0 <> t) by (intros ->; congruence).
      exists t0, g0. split; [by rewrite list_lookup_insert_ne |].
      split; [done |]. split; [| done].
      intros t' g'' H' Hne'. destruct (decide (t' = t)) as [->|Hne].
      * by rewrite (lookup_insert_same _ _ _ _ H').
      * eapply Hothers; [| done]. by eapply lookup_insert_other.
Qed.

(** The holder of the mutex moves on and keeps it. *)
Lemma writers_inv_holder_moves (c : Hammer) (w : Memory) (a : Z) (t : nat)
    (g g' : Goroutine) :
  writers_inv seq0 N num c -> goroutines c !! t = Some g ->
  holding g = true -> holding g' = true ->
  mut (rw w) = Locked ->
  sequence (rw w) = wrap64 (seq0 + (increments c - done_incs g + done_incs g')) ->
  all_incs N g' = all_incs N g -> writer_wf N num g' ->
  a = (if active g' then 10000 else 0) ->
  Z.odd (increments c - done_incs g + done_incs g') = in_cs g' ->
  writers_inv seq0 N num
    {| hmem := w; activity := a; received := received c;
       goroutines := <[t := g']> (goroutines c) |}.
Proof.
  intros Hinv Ht Hg Hg' Hm Hseq Ha Hwf Hact Hodd.
  destruct (writers_inv_holder c t g Hinv Ht Hg) as (_ & Hothers & _ & _).
  assert (Hincs : increments {| hmem := w; activity := a; received := received c;
                                 goroutines := <[t := g']> (goroutines c) |}
                  = increments c - done_incs g + done_incs g').
  { unfold increments. simpl. by rewrite (total_insert _ _ _ _ _ Ht). }
  split.
  - by rewrite Hincs.
  - simpl. intros t' g'' H'. destruct (decide (t' = t)) as [->|Hne].
    + by rewrite (lookup_insert_same _ _ _ _ H').
    + eapply inv_wf; [exact Hinv |]. by eapply lookup_insert_other.
  - simpl. rewrite (total_insert _ _ _ _ _ Ht), Ha.
    rewrite (inv_all _ _ _ _ Hinv). lia.
  - rewrite Hincs. simpl. rewrite Hm.
    exists t, g'. split.
    { apply list_lookup_insert_eq. by eapply lookup_lt_Some. }
    split; [done |]. split; [| done].
    intros t' g'' H' Hne. eapply Hothers; [| done]. by eapply lookup_insert_other.
Qed.

(** A goroutine takes the free mutex. *)
Lemma writers_inv_acquire (c : Hammer) (t : nat) (g g' : Goroutine) :
  writers_inv seq0 N num c -> goroutines c !! t = Some g ->
  mut (rw (hmem c)) = Unlocked ->
  done_incs g' = done_incs g -> all_incs N g' = all_incs N g ->
  holding g' = true -> active g' = false -> in_cs g' = false ->
  writer_wf N num g' ->
  writers_inv seq0 N num
    {| hmem := set_mut Locked (hmem c); activity := activity c;
       received := received c; goroutines := <[t := g']> (goroutines c) |}.
Proof.
  intros Hinv Ht Hm Hd Ha Hg' Hact' Hcs' Hwf.
  pose proof (inv_holder _ _ _ _ Hinv) as H. rewrite Hm in H.
  destruct H as (Hall & Hact & Hodd).
  assert (Hincs : increments {| hmem := set_mut Locked (hmem c); activity := activity c;
                                 received := received c;
                                 goroutines := <[t := g']> (goroutines c) |}
                  = increments c).
  { unfold increments. simpl. rewrite (total_insert _ _ _ _ _ Ht). lia. }
  split.
  - rewrite Hincs. apply (inv_sequence _ _ _ _ Hinv).
  - simpl. intros t' g'' H'. destruct (decide (t' = t)) as [->|Hne].
    + by rewrite (lookup_insert_same _ _ _ _ H').
    + eapply inv_wf; [exact Hinv |]. by eapply lookup_insert_other.
  - simpl. rewrite (total_insert _ _ _ _ _ Ht), Ha.
    rewrite (inv_all _ _ _ _ Hinv). lia.
  - rewrite Hincs. simpl. exists t, g'. split.
    { apply list_lookup_insert_eq. by eapply lookup_lt_Some. }
    split; [done |]. split.
    { intros t' g'' H' Hne. eapply Hall. by eapply lookup_insert_other. }
    by rewrite Hact', Hcs'.
Qed.

(** The holder releases the mutex. *)
Lemma writers_inv_release (c : Hammer) (t : nat) (g g' : Goroutine) :
  writers_inv seq0 N num c -> goroutines c !! t = Some g ->
  holding g = true -> active g = false -> in_cs g = false ->
  done_incs g' = done_incs g -> all_incs N g' = all_incs N g ->
  holding g' = false -> writer_wf N num g' ->
  writers_inv seq0 N num
    {| hmem := set_mut Unlocked (hmem c); activity := activity c;
       received := received c; goroutines := <[t := g']> (goroutines c) |}.
Proof.
  intros Hinv Ht Hg Hact Hcs Hd Ha Hg' Hwf.
  destruct (writers_inv_holder c t g Hinv Ht Hg) as (_ & Hothers & Hactivity & Hodd).
  assert (Hincs : increments {| hmem := set_mut Unlocked (hmem c); activity := activity c;
                                 received := received c;
                                 goroutines := <[t := g']> (goroutines c) |}
                  = increments c).
  { unfold increments. simpl. rewrite (total_insert _ _ _ _ _ Ht). lia. }
  split.
  - rewrite Hincs. apply (inv_sequence _ _ _ _ Hinv).
  - simpl. intros t' g'' H'. destruct (decide (t' = t)) as [->|Hne].
    + by rewrite (lookup_insert_same _ _ _ _ H').
    + eapply inv_wf; [exact Hinv |]. by eapply lookup_insert_other.
  - simpl. rewrite (total_insert _ _ _ _ _ Ht), Ha.
    rewrite (inv_all _ _ _ _ Hinv). lia.
  - rewrite Hincs. simpl. split.
    { intros t' g'' H'. destruct (decide (t' = t)) as [->|Hne].
      - by rewrite (lookup_insert_same _ _ _ _ H').
      - eapply Hothers; [| done]. by eapply lookup_insert_other. }
    by rewrite Hactivity, Hodd, Hact, Hcs.
Qed.

Lemma received_inv_keep (c : Hammer) (w : Memory) (a : Z) (t : nat)
    (g g' : Goroutine) :
  received_inv c -> goroutines c !! t = Some g -> is_done g' = is_done g ->
  received_inv {| hmem := w; activity := a; received := received c;
                  goroutines := <[t := g']> (goroutines c) |}.
Proof.
  intros [Hr H0] Ht Hd. split; [| done]. simpl.
  rewrite (total_insert _ _ _ _ _ Ht). lia.
Qed.

(** [cdone <- true] *)
Lemma send_inv (c : Hammer) (t : nat) (g g' : Goroutine) :
  writers_inv seq0 N num c -> received_inv c -> goroutines c !! t = Some g ->
  done_incs g' = done_incs g -> all_incs N g' = all_incs N g ->
  holding g = false -> holding g' = false -> writer_wf N num g' ->
  is_done g = 0 -> is_done g' = 1 ->
  exists c',
    send expected c t g' = Running c' /\
    writers_inv seq0 N num c' /\ received_inv c' /\
    hmem c' = hmem c /\ increments c' = increments c /\
    (c' = c \/
     exists r, c' = {| hmem := hmem c; activity := activity c; received := r;
                       goroutines := <[t := g']> (goroutines c) |}).
Proof.
  intros Hinv [Hr H0] Ht Hd Ha Hg Hg' Hwf Hdone Hdone'. unfold send.
  destruct (received c <? expected) eqn:E.
  - apply Z.ltb_lt in E. eexists. split; [reflexivity |].
    split; [by eapply writers_inv_neutral |]. split.
    { split; simpl.
      - rewrite wrap_int_small by lia. rewrite (total_insert _ _ _ _ _ Ht). lia.
      - rewrite wrap_int_small by lia. lia. }
    split; [done |]. split; [| right; eauto].
    unfold increments. simpl. rewrite (total_insert _ _ _ _ _ Ht). lia.
  - exists c. split; [done |]. split; [done |]. split; [done |]. auto.
Qed.

Lemma num_bound : num < 2 ^ 62.
Proof. lia. Qed.

(** One step of a [writer]: it does not panic, and keeps the lock's side. *)
Lemma writer_step_inv (c : Hammer) (t : nat) (i : Z) (place : WriterAt) :
  writers_inv seq0 N num c -> received_inv c ->
  goroutines c !! t = Some (GWriter i place) ->
  exists c',
    goroutine_step num expected t (GWriter i place) c = Running c' /\
    writers_inv seq0 N num c' /\ received_inv c' /\
    stamps (hmem c') = stamps (hmem c) /\
    increments c <= increments c' /\
    (goroutines c' = goroutines c \/
     exists i' place', goroutines c' = <[t := GWriter i' place']> (goroutines c)).
Proof.
  intros Hinv Hrec Ht.
  pose proof (inv_wf _ _ _ _ Hinv t _ Ht) as (Hi & Hin & Hdone).
  pose proof (inv_sequence _ _ _ _ Hinv) as Hseq.
  assert (Hincs : forall w a g',
             increments {| hmem := w; activity := a; received := received c;
                           goroutines := <[t := g']> (goroutines c) |}
             = increments c - done_incs (GWriter i place) + done_incs g').
  { intros. unfold increments. simpl. by rewrite (total_insert _ _ _ _ _ Ht). }
  destruct place; simpl goroutine_step.
  - (* the loop test *)
    destruct (i <? num) eqn:E.
    + apply Z.ltb_lt in E. unfold call, mut_Lock.
      destruct (mut (rw (hmem c))) eqn:Em.
      * eexists. split; [reflexivity |]. split.
        { apply (writers_inv_acquire c t (GWriter i WTop) (GWriter i WAcquired)
                   Hinv Ht Em);
            unfold done_incs, all_incs, writer_wf; try done. }
        split; [by eapply received_inv_keep |].
        split; [done |]. split; [| right; eauto].
        unfold resume. rewrite Hincs. unfold done_incs. lia.
      * exists c. split; [done |]. split; [done |]. split; [done |].
        split; [done |]. split; [lia | by left].
    + apply Z.ltb_ge in E.
      destruct (send_inv c t (GWriter i WTop) (GWriter i WDone) Hinv Hrec Ht)
        as (c' & Hc' & Hinv' & Hrec' & Hmem & Hincs' & Hgs); try done.
      { unfold writer_wf. split; [lia | split; [done |]]. intros _. lia. }
      exists c'. split; [done |]. split; [done |]. split; [done |].
      split; [by rewrite Hmem |]. split; [lia |].
      destruct Hgs as [->|[r ->]]; [by left | right; eauto].
  - (* atomic.AddUint64(&rw.sequence, 1), in Lock *)
    destruct (writers_inv_holder c t _ Hinv Ht eq_refl) as (Hm & _ & Hact & Hodd).
    unfold call, atomic_AddUint64. eexists. split; [reflexivity |].
    assert (Hin' : i < num) by (by apply Hin).
    split.
    { apply (writers_inv_holder_moves c _ _ t (GWriter i WAcquired) (GWriter i WInCS)
               Hinv Ht eq_refl eq_refl);
        unfold done_incs, all_incs, writer_wf, active, in_cs.
      - exact Hm.
      - unfold set_sequence. cbn [rw sequence].
        rewrite Hseq, wrap64_add_l. f_equal. lia.
      - done.
      - split; [lia | by split].
      - done.
      - replace (increments c - (2 * i + 0) + (2 * i + 1)) with (Z.succ (increments c)) by lia.
        by rewrite Z.odd_succ, <- Z.negb_odd, Hodd. }
    split; [by eapply received_inv_keep |].
    split; [done |]. split; [| right; eauto].
    unfold resume. rewrite Hincs. unfold done_incs. lia.
  - (* n := atomic.AddInt32(activity, 10000) *)
    destruct (writers_inv_holder c t _ Hinv Ht eq_refl) as (Hm & _ & Hact & Hodd).
    simpl in Hact. rewrite Hact. simpl.
    eexists. split; [reflexivity |].
    assert (Hin' : i < num) by (by apply Hin).
    split.
    { apply (writers_inv_holder_moves c _ _ t (GWriter i WInCS) (GWriter i WActive)
               Hinv Ht eq_refl eq_refl);
        unfold done_incs, all_incs, writer_wf, active, in_cs.
      - exact Hm.
      - rewrite Hseq. f_equal. lia.
      - done.
      - split; [lia | by split].
      - done.
      - replace (increments c - (2 * i + 1) + (2 * i + 1)) with (increments c) by lia.
        done. }
    split; [by eapply received_inv_keep |].
    split; [done |]. split; [| right; eauto].
    unfold resume. rewrite Hincs. unfold done_incs. lia.
  - (* atomic.AddInt32(activity, -10000) *)
    destruct (writers_inv_holder c t _ Hinv Ht eq_refl) as (Hm & _ & Hact & Hodd).
    simpl in Hact. rewrite Hact. simpl.
    eexists. split; [reflexivity |].
    assert (Hin' : i < num) by (by apply Hin).
    split.
    { apply (writers_inv_holder_moves c _ _ t (GWriter i WActive) (GWriter i WLeaving)
               Hinv Ht eq_refl eq_refl);
        unfold done_incs, all_incs, writer_wf, active, in_cs.
      - exact Hm.
      - rewrite Hseq. f_equal. lia.
      - done.
      - split; [lia | by split].
      - done.
      - replace (increments c - (2 * i + 1) + (2 * i + 1)) with (increments c) by lia.
        done. }
    split; [by eapply received_inv_keep |].
    split; [done |]. split; [| right; eauto].
    unfold resume. rewrite Hincs. unfold done_incs. lia.
  - (* atomic.AddUint64(&rw.sequence, 1), in Unlock *)
    destruct (writers_inv_holder c t _ Hinv Ht eq_refl) as (Hm & _ & Hact & Hodd).
    unfold call, atomic_AddUint64. eexists. split; [reflexivity |].
    assert (Hin' : i < num) by (by apply Hin).
    split.
    { apply (writers_inv_holder_moves c _ _ t (GWriter i WLeaving) (GWriter i WReleasing)
               Hinv Ht eq_refl eq_refl);
        unfold done_incs, all_incs, writer_wf, active, in_cs.
      - exact Hm.
      - unfold set_sequence. cbn [rw sequence].
        rewrite Hseq, wrap64_add_l. f_equal. lia.
      - done.
      - split; [lia | by split].
      - done.
      - replace (increments c - (2 * i + 1) + (2 * i + 2)) with (Z.succ (increments c)) by lia.
        by rewrite Z.odd_succ, <- Z.negb_odd, Hodd. }
    split; [by eapply received_inv_keep |].
    split; [done |]. split; [| right; eauto].
    unfold resume. rewrite Hincs. unfold done_incs. lia.
  - (* rw.mut.Unlock() *)
    destruct (writers_inv_holder c t _ Hinv Ht eq_refl) as (Hm & _ & Hact & Hodd).
    assert (Hin' : i < num) by (by apply Hin).
    unfold call, mut_Unlock. rewrite Hm.
    rewrite wrap_int_small by lia.
    eexists. split; [reflexivity |].
    split.
    { apply (writers_inv_release c t (GWriter i WReleasing) (GWriter (i + 1) WTop)
               Hinv Ht eq_refl eq_refl eq_refl);
        unfold done_incs, all_incs, writer_wf, holding.
      - lia.
      - done.
      - done.
      - split; [lia | by split]. }
    split; [by eapply received_inv_keep |].
    split; [done |]. split; [| right; eauto].
    unfold resume. rewrite Hincs. unfold done_incs. lia.
  - (* returned *)
    exists c. split; [done |]. split; [done |]. split; [done |].
        split; [done |]. split; [lia | by left].
Qed.

Lemma seen_mono (k K K' n : Z) : seen k K n -> K <= K' -> seen k K' n.
Proof. unfold seen. intros [H|[H|H]] HK; [by left | by right; left | right; right; lia]. Qed.

(** What a reader knows stays true when increments are made and its
    stamp's cell is left alone. *)
Lemma reader_ok_mono (st st' : list Stamp) (K K' : Z) (place : ReaderAt) :
  reader_ok seq0 st K place -> K <= K' ->
  (forall l v, stamp_of place = Some (Ref l) -> st !! l = Some v -> st' !! l = Some v) ->
  reader_ok seq0 st' K' place.
Proof.
  intros H HK Hst. destruct place as [|p|p n1|p n1 n2|]; simpl in *; try done.
  - destruct H as (l & k & -> & Hl & Hk). exists l, k.
    split; [done |]. split; [by apply Hst |]. lia.
  - destruct H as (l & k & -> & Hl & Hk & H1). exists l, k.
    split; [done |]. split; [by apply Hst |]. split; [lia |]. by eapply seen_mono.
  - destruct H as (l & k & -> & Hl & Hk & H1 & H2). exists l, k.
    split; [done |]. split; [by apply Hst |]. split; [lia |].
    split; by eapply seen_mono.
Qed.

(** The stamp of a reader is a cell of the store. *)
Lemma reader_ok_stamp (st : list Stamp) (K : Z) (place : ReaderAt) (p : StampPtr) :
  reader_ok seq0 st K place -> stamp_of place = Some p ->
  exists l k, p = Ref l /\ st !! l = Some (wrap64 (seq0 + k)) /\ 0 <= k <= K.
Proof.
  intros H Hp. destruct place as [|p'|p' n1|p' n1 n2|]; simpl in *; try done;
    injection Hp as <-.
  - done.
  - destruct H as (l & k & H1 & H2 & H3 & _). by exists l, k.
  - destruct H as (l & k & H1 & H2 & H3 & _). by exists l, k.
Qed.

(** A step of a writer leaves the readers' side as it is. *)
Lemma readers_inv_writer_step (c c' : Hammer) (t : nat) (i : Z) (place : WriterAt) :
  readers_inv seq0 c -> goroutines c !! t = Some (GWriter i place) ->
  stamps (hmem c') = stamps (hmem c) -> increments c <= increments c' ->
  (goroutines c' = goroutines c \/
   exists i' place', goroutines c' = <[t := GWriter i' place']> (goroutines c)) ->
  readers_inv seq0 c'.
Proof.
  intros Hinv Ht Hst HK Hgs.
  assert (Hsame : forall t1 i1 place1,
             goroutines c' !! t1 = Some (GReader i1 place1) ->
             goroutines c !! t1 = Some (GReader i1 place1)).
  { intros t1 i1 place1 H1. destruct Hgs as [Hgs|(i' & place' & Hgs)]; rewrite Hgs in H1.
    - done.
    - destruct (decide (t1 = t)) as [->|Hne].
      + by apply lookup_insert_same in H1.
      + by eapply lookup_insert_other. }
  split.
  - intros t1 i1 place1 H1. rewrite Hst.
    eapply reader_ok_mono; [| exact HK | done].
    eapply inv_reader; [exact Hinv |]. by apply Hsame.
  - intros t1 t2 i1 i2 place1 place2 p Hne H1 H2.
    eapply (inv_own_stamp _ _ Hinv t1 t2); eauto.
Qed.

(** A reader moves on: what is to be shown. *)
Lemma readers_inv_reader_step (c : Hammer) (w : Memory) (r : Z) (t : nat)
    (i i' : Z) (place place' : ReaderAt) :
  readers_inv seq0 c -> goroutines c !! t = Some (GReader i place) ->
  (forall t1 i1 place1, t1 <> t -> goroutines c !! t1 = Some (GReader i1 place1) ->
     reader_ok seq0 (stamps w) (increments c) place1) ->
  reader_ok seq0 (stamps w) (increments c) place' ->
  (forall t1 i1 place1 p, t1 <> t -> goroutines c !! t1 = Some (GReader i1 place1) ->
     stamp_of place' = Some p -> stamp_of place1 <> Some p) ->
  readers_inv seq0
    {| hmem := w; activity := activity c; received := r;
       goroutines := <[t := GReader i' place']> (goroutines c) |}.
Proof.
  intros Hinv Ht Hothers Hnew Hfresh.
  assert (Hincs : increments {| hmem := w; activity := activity c; received := r;
                                 goroutines := <[t := GReader i' place']> (goroutines c) |}
                  = increments c).
  { unfold increments. simpl. rewrite (total_insert _ _ _ _ _ Ht). simpl. lia. }
  split.
  - rewrite Hincs. simpl. intros t1 i1 place1 H1.
    destruct (decide (t1 = t)) as [->|Hne].
    + apply lookup_insert_same in H1. by injection H1 as -> ->.
    + eapply Hothers; [done |]. by eapply lookup_insert_other.
  - simpl. intros t1 t2 i1 i2 place1 place2 p Hne H1 H2 Hp.
    destruct (decide (t1 = t)) as [->|Hne1]; [| destruct (decide (t2 = t)) as [->|Hne2]].
    + apply lookup_insert_same in H1. injection H1 as -> ->.
      eapply Hfresh; [| by eapply lookup_insert_other | done]. done.
    + apply lookup_insert_same in H2. injection H2 as -> ->.
      intros Hp'. eapply (Hfresh t1 i1 place1 p); [done | | done | done].
      by eapply lookup_insert_other.
    + eapply (inv_own_stamp _ _ Hinv t1 t2); eauto; by eapply lookup_insert_other.
Qed.

Lemma wrap64_inj_near (a k K : Z) :
  0 <= k <= K -> K < 2 ^ 64 -> wrap64 (a + K) = wrap64 (a + k) -> K = k.
Proof.
  unfold wrap64, two64. intros Hk HK H.
  pose proof (Z.div_mod (a + K) (2 ^ 64) ltac:(lia)) as H1.
  pose proof (Z.div_mod (a + k) (2 ^ 64) ltac:(lia)) as H2.
  rewrite H in H1.
  assert (K - k = 2 ^ 64 * ((a + K) / 2 ^ 64 - (a + k) / 2 ^ 64)) by lia.
  nia.
Qed.

Lemma odd_stamp (k : Z) : Z.odd (wrap64 (seq0 + k)) = Z.odd k.
Proof. by rewrite odd_wrap64, Z.odd_add, Hseq0. Qed.

(** What a reader loads from [activity] is zero unless its stamp is odd
    or out of date. *)
Lemma activity_seen (c : Hammer) (k : Z) :
  writers_inv seq0 N num c -> 0 <= k <= increments c ->
  seen k (increments c) (activity c).
Proof.
  intros Hinv Hk. destruct (writers_inv_activity c Hinv) as [H|[_ Hodd]].
  - by left.
  - right. destruct (decide (k = increments c)) as [->|Hne]; [by left | right; lia].
Qed.

(** One step of an [optimisticReader]: it does not panic, and both sides
    are kept. *)
Lemma reader_step_inv (c : Hammer) (t : nat) (i : Z) (place : ReaderAt) :
  writers_inv seq0 N num c -> readers_inv seq0 c -> received_inv c ->
  goroutines c !! t = Some (GReader i place) ->
  exists c',
    goroutine_step num expected t (GReader i place) c = Running c' /\
    writers_inv seq0 N num c' /\ readers_inv seq0 c' /\ received_inv c'.
Proof.
  intros Hinv Hrd Hrec Ht.
  pose proof (inv_reader _ _ Hrd t i place Ht) as Hok.
  pose proof (inv_sequence _ _ _ _ Hinv) as Hseq.
  pose proof (increments_range c Hinv) as HK.
  assert (Hkeep : forall t1 i1 place1,
             t1 <> t -> goroutines c !! t1 = Some (GReader i1 place1) ->
             reader_ok seq0 (stamps (hmem c)) (increments c) place1).
  { intros t1 i1 place1 _ H1. by eapply inv_reader. }
  assert (Hown : forall place',
             stamp_of place' = stamp_of place ->
             forall t1 i1 place1 p,
             t1 <> t -> goroutines c !! t1 = Some (GReader i1 place1) ->
             stamp_of place' = Some p -> stamp_of place1 <> Some p).
  { intros place' Heq t1 i1 place1 p Hne H1 Hp. rewrite Heq in Hp.
    eapply (inv_own_stamp _ _ Hrd t t1); eauto. }
  destruct place as [|p|p n1|p n1 n2|]; simpl goroutine_step.
  - (* the loop test *)
    destruct (i <? num) eqn:E.
    + (* stamp := rwm.RStamp() *)
      unfold call. rewrite RStamp_run. eexists. split; [reflexivity |].
      split; [by eapply writers_inv_neutral |].
      split; [| by eapply received_inv_keep].
      eapply readers_inv_reader_step; [exact Hrd | exact Ht | | |].
      * intros t1 i1 place1 Hne H1.
        eapply reader_ok_mono; [by eapply Hkeep | lia |].
        intros l v _ Hl. by apply lookup_app_l_Some.
      * simpl. exists (length (stamps (hmem c))), (increments c).
        split; [done |]. split; [| lia].
        rewrite <- Hseq. by apply list_lookup_middle.
      * intros t1 i1 place1 p Hne H1 Hp Hp1. simpl in Hp. injection Hp as <-.
        destruct (reader_ok_stamp _ _ _ _ (Hkeep t1 i1 place1 Hne H1) Hp1)
          as (l & k & Hl & Hst & _).
        injection Hl as <-. apply lookup_lt_Some in Hst. lia.
    + (* cdone <- true *)
      destruct (send_inv c t (GReader i RTop) (GReader i RDone) Hinv Hrec Ht)
        as (c' & Hc' & Hinv' & Hrec' & Hmem & Hincs' & Hgs); try done.
      exists c'. split; [done |]. split; [done |]. split; [| done].
      destruct Hgs as [->|[r ->]]; [done |].
      eapply readers_inv_reader_step; [exact Hrd | exact Ht | by apply Hkeep | done |].
      intros t1 i1 place1 p0 _ _ Hp. discriminate.
  - (* n1 = atomic.LoadInt32(activity) *)
    eexists. split; [reflexivity |].
    split; [by eapply writers_inv_neutral |].
    split; [| by eapply received_inv_keep].
    eapply readers_inv_reader_step; [exact Hrd | exact Ht | by apply Hkeep | |].
    * simpl in *. destruct Hok as (l & k & Hp & Hl & Hk). exists l, k.
      split; [done |]. split; [done |]. split; [done |]. by apply activity_seen.
    * by apply Hown.
  - (* n2 = atomic.LoadInt32(activity) *)
    eexists. split; [reflexivity |].
    split; [by eapply writers_inv_neutral |].
    split; [| by eapply received_inv_keep].
    eapply readers_inv_reader_step; [exact Hrd | exact Ht | by apply Hkeep | |].
    * simpl in *. destruct Hok as (l & k & Hp & Hl & Hk & H1). exists l, k.
      split; [done |]. split; [done |]. split; [done |].
      split; [done |]. by apply activity_seen.
    * by apply Hown.
  - (* rwm.Ok(stamp) *)
    simpl in Hok. destruct Hok as (l & k & -> & Hl & Hk & H1 & H2).
    unfold call. rewrite (Ok_run _ _ _ Hl). rewrite Hseq.
    destruct (Ok_result (wrap64 (seq0 + increments c)) (wrap64 (seq0 + k))) eqn:Eres.
    + (* break *)
      apply Ok_result_true in Eres as [Hodd Hsame].
      rewrite odd_stamp in Hodd.
      apply wrap64_inj_near in Hsame; [| done | lia]. subst k.
      assert (Hn : forall n, seen (increments c) (increments c) n -> n = 0).
      { intros n [H|[H|H]]; [done | congruence | lia]. }
      rewrite (Hn n1 H1), (Hn n2 H2). simpl.
      eexists. split; [reflexivity |].
      split; [by eapply writers_inv_neutral |].
      split; [| by eapply received_inv_keep].
      eapply readers_inv_reader_step; [exact Hrd | exact Ht | | done |].
      * intros t1 i1 place1 Hne Ht1.
        eapply reader_ok_mono; [by eapply Hkeep | lia |].
        intros l1 v _ Hl1. by apply lookup_app_l_Some.
      * intros t1 i1 place1 p0 _ _ Hp. discriminate.
    + (* the stamp is brought up to date, and the loop goes round *)
      eexists. split; [reflexivity |].
      split; [by eapply writers_inv_neutral |].
      split; [| by eapply received_inv_keep].
      eapply readers_inv_reader_step; [exact Hrd | exact Ht | | |].
      * intros t1 i1 place1 Hne Ht1.
        eapply reader_ok_mono; [by eapply Hkeep | lia |].
        intros l1 v Hp1 Hl1. simpl. apply lookup_app_l_Some.
        rewrite list_lookup_insert_ne; [done |].
        intros ->. by eapply (inv_own_stamp _ _ Hrd t t1 _ _ _ _ (Ref l1)).
      * simpl. exists l, (increments c). split; [done |]. split; [| lia].
        apply lookup_app_l_Some. apply list_lookup_insert_eq.
        by eapply lookup_lt_Some.
      * by apply Hown.
  - (* returned *)
    by exists c.
Qed.

Lemma hammer_step_inv (t : nat) (c : Hammer) :
  writers_inv seq0 N num c -> readers_inv seq0 c -> received_inv c ->
  exists c',
    hammer_step num expected t c = Running c' /\
    writers_inv seq0 N num c' /\ readers_inv seq0 c' /\ received_inv c' /\
    length (goroutines c') = length (goroutines c).
Proof.
  intros Hinv Hrd Hrec. unfold hammer_step.
  destruct (goroutines c !! t) as [[i place|i place]|] eqn:Et; [| | by exists c].
  - destruct (writer_step_inv c t i place Hinv Hrec Et)
      as (c' & Hc' & Hinv' & Hrec' & Hst & HK & Hgs).
    exists c'. split; [done |]. split; [done |].
    split; [by eapply readers_inv_writer_step |]. split; [done |].
    destruct Hgs as [->|(i' & place' & ->)]; [done | apply length_insert].
  - destruct (reader_step_inv c t i place Hinv Hrd Hrec Et)
      as (c' & Hc' & Hinv' & Hrd' & Hrec').
    exists c'. split; [done |]. split; [done |]. split; [done |]. split; [done |].
    clear -Hc'. destruct place as [|p|p n1|p n1 n2|]; simpl in Hc';
      unfold call, send in Hc';
      repeat match type of Hc' with
             | context [if ?b then _ else _] => destruct b
             | context [match ?m with Ret _ _ => _ | _ => _ end] => destruct m
             end;
      try discriminate; injection Hc' as <-; simpl; try done; apply length_insert.
Qed.

Lemma hammer_exec_inv (schedule : list nat) (c : Hammer) :
  writers_inv seq0 N num c -> readers_inv seq0 c -> received_inv c ->
  exists c',
    hammer_exec num expected schedule c = Running c' /\
    writers_inv seq0 N num c' /\ readers_inv seq0 c' /\ received_inv c' /\
    length (goroutines c') = length (goroutines c).
Proof.
  revert c. induction schedule as [|t schedule IH]; intros c Hinv Hrd Hrec.
  - by exists c.
  - destruct (hammer_step_inv t c Hinv Hrd Hrec)
      as (c1 & H1 & Hinv1 & Hrd1 & Hrec1 & Hlen1).
    destruct (IH c1 Hinv1 Hrd1 Hrec1) as (c' & H' & Hinv' & Hrd' & Hrec' & Hlen').
    exists c'. simpl. rewrite H1. split; [done |]. split; [done |].
    split; [done |]. split; [done |]. congruence.
Qed.

(** All goroutines have returned: the writers have made all their
    increments, the mutex is free and [activity] is back at zero. *)
Lemma all_done_final (c : Hammer) :
  writers_inv seq0 N num c ->
  (forall t g, goroutines c !! t = Some g -> is_done g = 1) ->
  sequence (rw (hmem c)) = wrap64 (seq0 + 4 * N) /\
  mut (rw (hmem c)) = Unlocked /\ activity c = 0.
Proof.
  intros Hinv Hdone.
  assert (HK : increments c = 4 * N).
  { rewrite <- (inv_all _ _ _ _ Hinv). unfold increments.
    assert (Hpt : forall t g, goroutines c !! t = Some g ->
                              done_incs g = all_incs N g).
    { intros t g Hg. pose proof (Hdone t g Hg) as Hd.
      pose proof (inv_wf _ _ _ _ Hinv t g Hg) as Hwf.
      destruct g as [i place|i place]; [| done].
      destruct place; simpl in Hd; try discriminate.
      destruct Hwf as (_ & _ & Hi). rewrite (Hi eq_refl).
      unfold done_incs, all_incs. lia. }
    revert Hpt. generalize (goroutines c). clear.
    induction l as [|g l IH]; intros H; simpl; [done |].
    rewrite (H 0%nat g eq_refl), IH; [done |].
    intros t g' Hg'. exact (H (S t) g' Hg'). }
  split; [by rewrite (inv_sequence _ _ _ _ Hinv), HK |].
  pose proof (inv_holder _ _ _ _ Hinv) as H.
  destruct (mut (rw (hmem c))).
  - split; [done | tauto].
  - destruct H as (t & g & Ht & Hg & _).
    specialize (Hdone t g Ht). by destruct g as [i []|i []].
Qed.

End Hammer.

(** The goroutines main starts. *)
Lemma hammer_init_goroutine (numReaders initialSequence : Z) (t : nat) (g : Goroutine) :
  goroutines (hammer_init numReaders initialSequence) !! t = Some g ->
  g = GWriter 0 WTop \/ g = GReader 0 RTop.
Proof.
  intros H. apply list_elem_of_lookup_2 in H. unfold hammer_init in H. simpl in H.
  rewrite elem_of_cons, elem_of_app, elem_of_cons in H.
  destruct H as [H|[H|[H|H]]]; [by left | | by left |];
    right; by eapply elem_of_replicate_inv.
Qed.

Lemma hammer_init_length (numReaders initialSequence : Z) :
  0 <= numReaders ->
  Z.of_nat (length (goroutines (hammer_init numReaders initialSequence))) = 2 + numReaders.
Proof.
  intros H. unfold hammer_init. simpl.
  rewrite List.length_app. simpl. rewrite !length_replicate.
  pose proof (Z.quot_pos numReaders 2 H ltac:(lia)).
  pose proof (Z.quot_le_upper_bound numReaders 2 numReaders ltac:(lia) ltac:(lia)).
  lia.
Qed.

Lemma hammer_init_inv (numReaders numIterations initialSequence : Z) :
  is_uint64 initialSequence ->
  writers_inv initialSequence (Z.max 0 numIterations) numIterations
              (hammer_init numReaders initialSequence) /\
  readers_inv initialSequence (hammer_init numReaders initialSequence) /\
  received_inv (hammer_init numReaders initialSequence).
Proof.
  intros Hr.
  assert (Hincs : increments (hammer_init numReaders initialSequence) = 0).
  { unfold increments, hammer_init. simpl.
    rewrite total_app. simpl. rewrite !total_replicate. simpl. lia. }
  split; [| split].
  - split.
    + rewrite Hincs, Z.add_0_r. simpl. by rewrite wrap64_small.
    + intros t g Hg. destruct (hammer_init_goroutine numReaders initialSequence _ _ Hg) as [->| ->]; simpl; [| done].
      split; [lia |]. split; [done | discriminate].
    + unfold hammer_init. simpl. rewrite total_app. simpl.
      rewrite !total_replicate. simpl. lia.
    + rewrite Hincs. simpl. split; [| done].
      intros t g Hg. by destruct (hammer_init_goroutine numReaders initialSequence _ _ Hg) as [->| ->].
  - split.
    + intros t i place Hg.
      destruct (hammer_init_goroutine numReaders initialSequence _ _ Hg) as [H|H]; [discriminate |].
      by injection H as -> ->.
    + intros t t' i i' place place' p _ Hg _.
      destruct (hammer_init_goroutine numReaders initialSequence _ _ Hg) as [H|H]; [discriminate |].
      by injection H as -> ->.
  - split; [| done]. unfold hammer_init. simpl. rewrite total_app. simpl.
    rewrite !total_replicate. simpl. lia.
Qed.

Lemma hammer_even (initialSequence : Z) :
  negb (Z.land initialSequence 1 =? 0) = Z.odd initialSequence.
Proof.
  change 1 with (Z.ones 1) at 1. rewrite Z.land_ones by lia.
  change (2 ^ 1) with 2. rewrite Zmod_odd. by destruct (Z.odd initialSequence).
Qed.

(** [HammerRWMutex] with an even initial sequence: where any schedule
    leads. *)
Lemma HammerRWMutex_inv
    (gomaxprocs numReaders numIterations initialSequence : Z) (schedule : list nat) :
  is_uint64 initialSequence -> Z.even initialSequence = true ->
  4 * Z.max 0 numIterations < 2 ^ 64 ->
  exists c,
    HammerRWMutex gomaxprocs numReaders numIterations initialSequence schedule
    = Running c /\
    writers_inv initialSequence (Z.max 0 numIterations) numIterations c /\
    readers_inv initialSequence c /\ received_inv c /\
    length (goroutines c) = length (goroutines (hammer_init numReaders initialSequence)).
Proof.
  intros Hr He Hb. apply even_not_odd in He.
  unfold HammerRWMutex. rewrite hammer_even, He. simpl.
  destruct (hammer_init_inv numReaders numIterations initialSequence Hr)
    as (Hinv & Hrd & Hrec).
  eapply hammer_exec_inv; eauto. apply wrap_int_range.
Qed.

(** X9.  The stress test panics only through its own guard.  With an odd
    initial sequence [HammerRWMutex] panics before it starts anything.  With
    an even one, and fewer than [2^64] increments to make in all, no
    schedule of its goroutines makes any of them panic: a writer always
    finds [activity] at zero when it enters, a reader whose [Ok] returns
    true has loaded zero twice, and no [Unlock] meets a free mutex. *)
Theorem HammerRWMutex_panics_only_on_odd_sequence
    (gomaxprocs numReaders numIterations initialSequence : Z) (schedule : list nat) :
  is_uint64 initialSequence -> 4 * Z.max 0 numIterations < 2 ^ 64 ->
  (Z.even initialSequence = true ->
   exists c,
     HammerRWMutex gomaxprocs numReaders numIterations initialSequence schedule
     = Running c) /\
  (Z.even initialSequence = false ->
   HammerRWMutex gomaxprocs numReaders numIterations initialSequence schedule
   = Panicked (OddInitialSequence initialSequence)).
Proof.
  intros Hr Hb. split; intros He.
  - destruct (HammerRWMutex_inv gomaxprocs numReaders numIterations initialSequence
                schedule Hr He Hb) as (c & Hc & _).
    by exists c.
  - unfold HammerRWMutex. rewrite hammer_even, <- Z.negb_even, He. done.
Qed.

Lemma HammerRWMutex_panics_only_on_odd_sequence_witness :
  is_uint64 (MaxUint64 - 1) /\ 4 * Z.max 0 1 < 2 ^ 64 /\
  (Z.even (MaxUint64 - 1) = true ->
   exists c,
     HammerRWMutex 4 1 1 (MaxUint64 - 1) [0; 2; 1; 0; 2; 0]%nat = Running c) /\
  (Z.even (MaxUint64 - 1) = false ->
   HammerRWMutex 4 1 1 (MaxUint64 - 1) [0; 2; 1; 0; 2; 0]%nat
   = Panicked (OddInitialSequence (MaxUint64 - 1))).
Proof.
  assert (Hr : is_uint64 (MaxUint64 - 1)) by (split; [discriminate | reflexivity]).
  assert (Hb : 4 * Z.max 0 1 < 2 ^ 64) by reflexivity.
  split; [exact Hr |]. split; [exact Hb |].
  apply (HammerRWMutex_panics_only_on_odd_sequence 4 1 1 (MaxUint64 - 1)
           [0; 2; 1; 0; 2; 0]%nat Hr Hb).
Defined.

(** X10.  In the stress test, under every schedule and with readers
    running, at most one writer is between taking and releasing the mutex;
    the sequence is odd exactly while a writer is between the return of
    [Lock] and the call of [Unlock]; and [activity] is [10000] exactly while
    a writer has raised it, and zero otherwise. *)
Theorem HammerRWMutex_writers_exclusive
    (gomaxprocs numReaders numIterations initialSequence : Z) (schedule : list nat) :
  is_uint64 initialSequence -> Z.even initialSequence = true ->
  4 * Z.max 0 numIterations < 2 ^ 64 ->
  exists c,
    HammerRWMutex gomaxprocs numReaders numIterations initialSequence schedule
    = Running c /\
    (forall t1 t2 g1 g2,
       goroutines c !! t1 = Some g1 -> goroutines c !! t2 = Some g2 ->
       holding g1 = true -> holding g2 = true -> t1 = t2) /\
    (Z.odd (sequence (rw (hmem c))) = true <->
     exists t g, goroutines c !! t = Some g /\ in_cs g = true) /\
    (activity c = 10000 <-> exists t i, goroutines c !! t = Some (GWriter i WActive)) /\
    (activity c = 0 \/ activity c = 10000).
Proof.
  intros Hr He Hb.
  destruct (HammerRWMutex_inv gomaxprocs numReaders numIterations initialSequence
              schedule Hr He Hb) as (c & Hc & Hinv & _).
  apply even_not_odd in He.
  exists c. split; [done |].
  assert (Hodd : Z.odd (sequence (rw (hmem c))) = Z.odd (increments c)).
  { by rewrite (inv_sequence _ _ _ _ Hinv), odd_wrap64, Z.odd_add, He. }
  assert (Hholder : forall t g, goroutines c !! t = Some g -> holding g = true ->
            (forall t' g', goroutines c !! t' = Some g' -> t' <> t -> holding g' = false) /\
            activity c = (if active g then 10000 else 0) /\
            Z.odd (increments c) = in_cs g).
  { intros t g Ht Hg. by destruct (writers_inv_holder _ _ _ c t g Hinv Ht Hg) as (_ & H). }
  split; [| split; [| split]].
  - intros t1 t2 g1 g2 H1 H2 Hg1 Hg2.
    destruct (Hholder t1 g1 H1 Hg1) as (Hothers & _).
    destruct (decide (t2 = t1)) as [->|Hne]; [done |].
    rewrite (Hothers t2 g2 H2 Hne) in Hg2. discriminate.
  - rewrite Hodd. split.
    + intros HK. pose proof (inv_holder _ _ _ _ Hinv) as H.
      destruct (mut (rw (hmem c))).
      * destruct H as (_ & _ & H). congruence.
      * destruct H as (t & g & Ht & _ & _ & _ & H). exists t, g. split; [done | congruence].
    + intros (t & g & Ht & Hg).
      destruct (Hholder t g Ht) as (_ & _ & H); [by destruct g as [i []|] | congruence].
  - split.
    + intros Ha. pose proof (inv_holder _ _ _ _ Hinv) as H.
      destruct (mut (rw (hmem c))).
      * destruct H as (_ & H & _). lia.
      * destruct H as (t & g & Ht & _ & _ & H & _). exists t.
        destruct g as [i []|]; simpl in H; try lia. by exists i.
    + intros (t & i & Ht). by destruct (Hholder t _ Ht eq_refl) as (_ & H & _).
  - destruct (writers_inv_activity _ _ _ c Hinv) as [H|[H _]]; auto.
Qed.

Lemma HammerRWMutex_writers_exclusive_witness :
  is_uint64 (MaxUint64 - 1) /\ Z.even (MaxUint64 - 1) = true /\
  4 * Z.max 0 1 < 2 ^ 64 /\
  exists c,
    HammerRWMutex 4 1 1 (MaxUint64 - 1) [0; 2; 1; 0; 2; 0]%nat = Running c /\
    (forall t1 t2 g1 g2,
       goroutines c !! t1 = Some g1 -> goroutines c !! t2 = Some g2 ->
       holding g1 = true -> holding g2 = true -> t1 = t2) /\
    (Z.odd (sequence (rw (hmem c))) = true <->
     exists t g, goroutines c !! t = Some g /\ in_cs g = true) /\
    (activity c = 10000 <-> exists t i, goroutines c !! t = Some (GWriter i WActive)) /\
    (activity c = 0 \/ activity c = 10000).
Proof.
  assert (Hr : is_uint64 (MaxUint64 - 1)) by (split; [discriminate | reflexivity]).
  split; [exact Hr |]. split; [reflexivity |]. split; [reflexivity |].
  apply (HammerRWMutex_writers_exclusive 4 1 1 (MaxUint64 - 1)
           [0; 2; 1; 0; 2; 0]%nat Hr); reflexivity.
Defined.

(** X11.  When [HammerRWMutex] returns.  Once main has received from all
    [2 + numReaders] goroutines, every goroutine has finished its loop, the
    mutex is free, [activity] is zero, and the sequence is the initial one
    plus four increments for each iteration (two writers, two increments
    each), modulo [2^64]. *)
Theorem HammerRWMutex_returns_quiescent
    (gomaxprocs numReaders numIterations initialSequence : Z) (schedule : list nat)
    (c : Hammer) :
  is_uint64 initialSequence -> Z.even initialSequence = true ->
  4 * Z.max 0 numIterations < 2 ^ 64 ->
  0 <= numReaders < 2 ^ 63 - 2 ->
  HammerRWMutex gomaxprocs numReaders numIterations initialSequence schedule
  = Running c ->
  hammer_returned numReaders c ->
  (forall t g, goroutines c !! t = Some g -> is_done g = 1) /\
  sequence (rw (hmem c)) = (initialSequence + 4 * Z.max 0 numIterations) mod 2 ^ 64 /\
  mut (rw (hmem c)) = Unlocked /\
  activity c = 0.
Proof.
  intros Hr He Hb Hn Hc Hret.
  destruct (HammerRWMutex_inv gomaxprocs numReaders numIterations initialSequence
              schedule Hr He Hb) as (c' & Hc' & Hinv & _ & [Hrec _] & Hlen).
  rewrite Hc in Hc'. injection Hc' as <-.
  unfold hammer_returned in Hret. rewrite wrap_int_small in Hret by lia.
  assert (Hall : forall t g, goroutines c !! t = Some g -> is_done g = 1).
  { apply (total_eq_pointwise is_done (fun _ => 1)).
    - intros t g _. destruct g as [i []|i []]; simpl; lia.
    - rewrite <- Hrec, Hret, <- (hammer_init_length numReaders initialSequence) by lia.
      rewrite <- Hlen. clear. induction (goroutines c); simpl; [done | lia]. }
  split; [exact Hall |].
  apply even_not_odd in He.
  eapply all_done_final; eauto.
Qed.

Lemma HammerRWMutex_returns_quiescent_witness :
  is_uint64 (MaxUint64 - 1) /\ Z.even (MaxUint64 - 1) = true /\
  4 * Z.max 0 1 < 2 ^ 64 /\ 0 <= 1 < 2 ^ 63 - 2 /\
  HammerRWMutex 1 1 1 (MaxUint64 - 1)
    [0; 2; 1; 0; 2; 0; 2; 0; 2; 0; 0; 1; 1; 2; 1; 2; 1; 2; 1; 2; 1; 1; 1;
     0; 2; 2; 2; 2; 2; 1; 0; 2]%nat
  = Running {| hmem := memory_at Unlocked 2 [2; MaxUint64; 1; 2; 2];
               activity := 0; received := 3;
               goroutines := [GWriter 1 WDone; GWriter 1 WDone; GReader 1 RDone] |} /\
  hammer_returned 1
    {| hmem := memory_at Unlocked 2 [2; MaxUint64; 1; 2; 2];
       activity := 0; received := 3;
       goroutines := [GWriter 1 WDone; GWriter 1 WDone; GReader 1 RDone] |} /\
  (forall t g,
     [GWriter 1 WDone; GWriter 1 WDone; GReader 1 RDone] !! t = Some g -> is_done g = 1) /\
  2 = (MaxUint64 - 1 + 4 * Z.max 0 1) mod 2 ^ 64 /\
  Unlocked = Unlocked /\
  0 = 0.
Proof.
  assert (Hr : is_uint64 (MaxUint64 - 1)) by (split; [discriminate | reflexivity]).
  assert (Hn : 0 <= 1 < 2 ^ 63 - 2) by (split; [discriminate | reflexivity]).
  split; [exact Hr |]. split; [reflexivity |]. split; [reflexivity |].
  split; [exact Hn |]. split; [reflexivity |]. split; [reflexivity |].
  apply (HammerRWMutex_returns_quiescent 1 1 1 (MaxUint64 - 1)
           [0; 2; 1; 0; 2; 0; 2; 0; 2; 0; 0; 1; 1; 2; 1; 2; 1; 2; 1; 2; 1; 1; 1;
            0; 2; 2; 2; 2; 2; 1; 0; 2]%nat
           {| hmem := memory_at Unlocked 2 [2; MaxUint64; 1; 2; 2];
              activity := 0; received := 3;
              goroutines := [GWriter 1 WDone; GWriter 1 WDone; GReader 1 RDone] |}
           Hr); [reflexivity | reflexivity | exact Hn | reflexivity | reflexivity].
Defined.

(** Some goroutine can always move: the holder of the mutex when it is
    held, any goroutine that has not returned when it is free. *)
Lemma hammer_progress (seq0 num expected : Z) (c : Hammer) :
  4 * Z.max 0 num < 2 ^ 64 -> Z.odd seq0 = false -> expected < 2 ^ 63 ->
  writers_inv seq0 (Z.max 0 num) num c -> readers_inv seq0 c -> received_inv c ->
  received c < expected ->
  (exists t g, goroutines c !! t = Some g /\ is_done g = 0) ->
  exists t g g' c',
    goroutines c !! t = Some g /\
    hammer_step num expected t c = Running c' /\
    goroutines c' !! t = Some g' /\ g' <> g.
Proof.
  intros Hb Hs0 He Hinv Hrd Hrec Hlt (t & g & Ht & Hg).
  assert (Hins : forall t g g', goroutines c !! t = Some g ->
                   <[t := g']> (goroutines c) !! t = Some g').
  { intros t1 g1 g1' H1. apply list_lookup_insert_eq. by eapply lookup_lt_Some. }
  pose proof (inv_holder _ _ _ _ Hinv) as H.
  destruct (mut (rw (hmem c))) eqn:Em.
  - destruct H as (Hall & _ & _). pose proof (Hall t g Ht) as Hh.
    exists t, g. unfold hammer_step. rewrite Ht.
    destruct g as [i place|i place]; destruct place; try discriminate;
      simpl goroutine_step.
    + destruct (i <? num).
      * unfold call, mut_Lock. rewrite Em.
        eexists _, _. split; [done |]. split; [reflexivity |].
        split; [by eapply Hins | discriminate].
      * unfold send. destruct (received c <? expected) eqn:E; [| apply Z.ltb_ge in E; lia].
        eexists _, _. split; [done |]. split; [reflexivity |].
        split; [by eapply Hins | discriminate].
    + destruct (i <? num).
      * unfold call. rewrite RStamp_run.
        eexists _, _. split; [done |]. split; [reflexivity |].
        split; [by eapply Hins | discriminate].
      * unfold send. destruct (received c <? expected) eqn:E; [| apply Z.ltb_ge in E; lia].
        eexists _, _. split; [done |]. split; [reflexivity |].
        split; [by eapply Hins | discriminate].
    + eexists _, _. split; [done |]. split; [reflexivity |].
      split; [by eapply Hins | discriminate].
    + eexists _, _. split; [done |]. split; [reflexivity |].
      split; [by eapply Hins | discriminate].
    + pose proof (inv_reader _ _ Hrd t i _ Ht) as Hok. simpl in Hok.
      destruct Hok as (l & k & -> & Hst & _).
      destruct (reader_step_inv seq0 (Z.max 0 num) num expected eq_refl Hb Hs0 He
                  c t i _ Hinv Hrd Hrec Ht) as (c' & Hc' & _).
      simpl goroutine_step in Hc'. rewrite Hc'. unfold call in Hc'.
      rewrite (Ok_run _ _ _ Hst) in Hc'.
      destruct (Ok_result _ _);
        [destruct (negb (n1 =? 0) || negb (n2 =? 0)); [discriminate |] |];
        injection Hc' as <-;
        (eexists _, _; split; [done |]; split; [reflexivity |];
         split; [by eapply Hins | discriminate]).
  - destruct H as (t0 & g0 & Ht0 & Hg0 & _ & Hact & _).
    exists t0, g0. unfold hammer_step. rewrite Ht0.
    destruct g0 as [i place|i place]; destruct place; try discriminate;
      simpl goroutine_step.
    + eexists _, _. split; [done |]. split; [reflexivity |].
      split; [by eapply Hins | discriminate].
    + simpl in Hact. rewrite Hact. simpl.
      eexists _, _. split; [done |]. split; [reflexivity |].
      split; [by eapply Hins | discriminate].
    + eexists _, _. split; [done |]. split; [reflexivity |].
      split; [by eapply Hins | discriminate].
    + eexists _, _. split; [done |]. split; [reflexivity |].
      split; [by eapply Hins | discriminate].
    + unfold call, mut_Unlock. rewrite Em.
      eexists _, _. split; [done |]. split; [reflexivity |].
      split; [by eapply Hins | discriminate].
Qed.

Lemma total_is_done (l : list Goroutine) :
  total is_done l <= Z.of_nat (length l) /\
  (total is_done l = Z.of_nat (length l) \/
   exists t g, l !! t = Some g /\ is_done g = 0).
Proof.
  induction l as [|g l (IHle & IH)]; simpl length; [simpl; split; [lia | by left] |].
  assert (Hg : is_done g = 0 \/ is_done g = 1) by (destruct g as [i []|i []]; simpl; lia).
  change (total is_done (g :: l)) with (is_done g + total is_done l).
  split; [lia |].
  destruct Hg as [Hg|Hg]; [right; by exists 0%nat, g |].
  destruct IH as [IH|(t & g' & Ht & Hg')]; [left; lia |].
  right. by exists (S t), g'.
Qed.

(** X12.  The stress test cannot deadlock.  In every configuration it
    reaches before main has received from all goroutines, some goroutine can
    take a step that changes its place: it is not the case that all of them
    are parked in [mut.Lock()] or on the channel. *)
Theorem HammerRWMutex_never_deadlocks
    (gomaxprocs numReaders numIterations initialSequence : Z) (schedule : list nat)
    (c : Hammer) :
  is_uint64 initialSequence -> Z.even initialSequence = true ->
  4 * Z.max 0 numIterations < 2 ^ 64 ->
  0 <= numReaders < 2 ^ 63 - 2 ->
  HammerRWMutex gomaxprocs numReaders numIterations initialSequence schedule
  = Running c ->
  ~ hammer_returned numReaders c ->
  exists t g g' c',
    goroutines c !! t = Some g /\
    hammer_step numIterations (wrap_int (2 + numReaders)) t c = Running c' /\
    goroutines c' !! t = Some g' /\ g' <> g.
Proof.
  intros Hr He Hb Hn Hc Hret.
  destruct (HammerRWMutex_inv gomaxprocs numReaders numIterations initialSequence
              schedule Hr He Hb) as (c' & Hc' & Hinv & Hrd & Hrec & Hlen).
  rewrite Hc in Hc'. injection Hc' as <-.
  unfold hammer_returned in Hret. rewrite wrap_int_small in * by lia.
  pose proof (hammer_init_length numReaders initialSequence ltac:(lia)) as Hlen0.
  rewrite <- Hlen in Hlen0.
  destruct (total_is_done (goroutines c)) as [Hle Hsome].
  destruct Hrec as [Hrec H0]. rewrite <- Hrec in Hle, Hsome.
  destruct Hsome as [Hsome|Hsome]; [lia |].
  apply (hammer_progress initialSequence numIterations (2 + numReaders) c);
    try done; [by apply even_not_odd | lia | lia].
Qed.

Lemma HammerRWMutex_never_deadlocks_witness :
  is_uint64 (MaxUint64 - 1) /\ Z.even (MaxUint64 - 1) = true /\
  4 * Z.max 0 1 < 2 ^ 64 /\ 0 <= 1 < 2 ^ 63 - 2 /\
  HammerRWMutex 4 1 1 (MaxUint64 - 1) [0; 2; 1; 0; 2; 0]%nat
  = Running {| hmem := memory_at Locked MaxUint64 [MaxUint64 - 1];
               activity := 10000; received := 0;
               goroutines := [GWriter 0 WActive; GWriter 0 WTop;
                              GReader 0 (RRead2 (Ref 0) 0)] |} /\
  ~ hammer_returned 1
      {| hmem := memory_at Locked MaxUint64 [MaxUint64 - 1];
         activity := 10000; received := 0;
         goroutines := [GWriter 0 WActive; GWriter 0 WTop;
                        GReader 0 (RRead2 (Ref 0) 0)] |} /\
  exists t g g' c',
    [GWriter 0 WActive; GWriter 0 WTop; GReader 0 (RRead2 (Ref 0) 0)] !! t = Some g /\
    hammer_step 1 (wrap_int (2 + 1)) t
      {| hmem := memory_at Locked MaxUint64 [MaxUint64 - 1];
         activity := 10000; received := 0;
         goroutines := [GWriter 0 WActive; GWriter 0 WTop;
                        GReader 0 (RRead2 (Ref 0) 0)] |} = Running c' /\
    goroutines c' !! t = Some g' /\ g' <> g.
Proof.
  assert (Hr : is_uint64 (MaxUint64 - 1)) by (split; [discriminate | reflexivity]).
  assert (Hn : 0 <= 1 < 2 ^ 63 - 2) by (split; [discriminate | reflexivity]).
  assert (Hret : ~ hammer_returned 1
                   {| hmem := memory_at Locked MaxUint64 [MaxUint64 - 1];
                      activity := 10000; received := 0;
                      goroutines := [GWriter 0 WActive; GWriter 0 WTop;
                                     GReader 0 (RRead2 (Ref 0) 0)] |})
    by discriminate.
  split; [exact Hr |]. split; [reflexivity |]. split; [reflexivity |].
  split; [exact Hn |]. split; [reflexivity |]. split; [exact Hret |].
  apply (HammerRWMutex_never_deadlocks 4 1 1 (MaxUint64 - 1) [0; 2; 1; 0; 2; 0]%nat
           {| hmem := memory_at Locked MaxUint64 [MaxUint64 - 1];
              activity := 10000; received := 0;
              goroutines := [GWriter 0 WActive; GWriter 0 WTop;
                             GReader 0 (RRead2 (Ref 0) 0)] |}
           Hr); [reflexivity | reflexivity | exact Hn | reflexivity | exact Hret].
Defined.

(** X13.  Any number of writers, interleaved.  With [n] goroutines that
    each run [rw.Lock(); ...; rw.Unlock()] over and over from a free mutex
    and an even sequence, under every schedule the sequence is odd exactly
    when some goroutine is between the return of its [Lock] and the call of
    its [Unlock]. *)
Theorem interleaved_writers_parity (n : nat) (w : Memory) (schedule : list nat) :
  mut (rw w) = Unlocked -> Z.even (sequence (rw w)) = true ->
  exists c,
    exec schedule (init n w) = Some c /\
    (Z.odd (sequence (rw (mem c))) = true <-> exists t, pcs c !! t = Some InCS).
Proof. apply interleaved_parity. Qed.

Lemma interleaved_writers_parity_witness :
  mut (rw (memory_at Unlocked (MaxUint64 - 1) [])) = Unlocked /\
  Z.even (sequence (rw (memory_at Unlocked (MaxUint64 - 1) []))) = true /\
  exists c,
    exec [2; 0; 2; 1; 2; 2; 0; 0]%nat (init 3 (memory_at Unlocked (MaxUint64 - 1) []))
    = Some c /\
    (Z.odd (sequence (rw (mem c))) = true <-> exists t, pcs c !! t = Some InCS).
Proof.
  split; [reflexivity |]. split; [reflexivity |].
  apply (interleaved_writers_parity 3 (memory_at Unlocked (MaxUint64 - 1) [])
           [2; 0; 2; 1; 2; 2; 0; 0]%nat);
    reflexivity.
Defined.

(** X14.  The sequential tests, from any quiescent state instead of a new
    lock.  With the mutex free and the sequence even: two readers that
    capture a stamp each both validate ([TestTwoReadersHappy]); a reader
    whose stamp was captured before a writer came in fails, and fails again
    on retry, as long as the writer stays
    ([TestOkIsFalseIfWriterArrivesAfterStampAcquired]); and so does a reader
    whose stamp was captured after ([TestOkIsFalseIfWriterArrivesBeforeStampAcquired]). *)
Theorem sequential_tests_from_any_quiescent_state (w : Memory) :
  mut (rw w) = Unlocked -> Z.even (sequence (rw w)) = true ->
  (exists w', TwoReadersHappy w = Ret (true, true) w') /\
  (exists w', WriterArrivesAfterStampAcquired w = Ret (false, false) w') /\
  (exists w', WriterArrivesBeforeStampAcquired w = Ret (false, false) w').
Proof.
  intros Hm He. apply even_not_odd in He. split; [| split].
  - destruct (RStamp_spec w) as (l1 & w1 & H1 & Hrw1 & Hl1).
    destruct (RStamp_spec w1) as (l2 & w2 & H2 & Hrw2 & Hl2).
    pose proof (RStamp_frame _ _ _ _ _ Hl1 H2) as Hl1'.
    rewrite <- Hrw1, <- Hrw2 in Hl1'. rewrite <- Hrw2 in Hl2.
    destruct (Ok_spec w2 l1 _ Hl1') as (w3 & H3 & Hrw3 & _).
    rewrite Ok_result_same in H3 by (by rewrite Hrw2, Hrw1).
    pose proof (Ok_keeps_current _ _ _ _ _ Hl2 H3) as Hl2'. rewrite <- Hrw3 in Hl2'.
    destruct (Ok_spec w3 l2 _ Hl2') as (w4 & H4 & _).
    rewrite Ok_result_same in H4 by (by rewrite Hrw3, Hrw2, Hrw1).
    exists w4. unfold TwoReadersHappy.
    run_with H1. run_with H2. run_with H3. run_with H4. done.
  - destruct (RStamp_spec w) as (l & w1 & H1 & Hrw1 & Hl1).
    destruct (Lock_spec w1) as (w2 & H2 & Hrw2 & Hs2); [by rewrite Hrw1 |].
    rewrite <- Hs2 in Hl1.
    assert (Hodd : Z.odd (sequence (rw w2)) = true).
    { rewrite Hrw2, Hrw1. simpl. by rewrite odd_wrap64_succ, He. }
    destruct (Ok_spec w2 l _ Hl1) as (w3 & H3 & Hrw3 & Hl3).
    rewrite (Ok_result_odd_sequence _ _ Hodd) in H3, Hl3.
    destruct (Ok_spec w3 l _ Hl3) as (w4 & H4 & _).
    rewrite Ok_result_odd_sequence in H4 by (by rewrite Hrw3).
    exists w4. unfold WriterArrivesAfterStampAcquired.
    run_with H1. run_with H2. run_with H3. run_with H4. done.
  - destruct (Lock_spec w Hm) as (w1 & H1 & Hrw1 & _).
    assert (Hodd : Z.odd (sequence (rw w1)) = true).
    { rewrite Hrw1. simpl. by rewrite odd_wrap64_succ, He. }
    destruct (RStamp_spec w1) as (l & w2 & H2 & Hrw2 & Hl2).
    destruct (Ok_spec w2 l _ Hl2) as (w3 & H3 & Hrw3 & Hl3).
    rewrite Ok_result_odd_sequence in H3, Hl3 by (by rewrite Hrw2).
    destruct (Ok_spec w3 l _ Hl3) as (w4 & H4 & _).
    rewrite Ok_result_odd_sequence in H4 by (by rewrite Hrw3, Hrw2).
    exists w4. unfold WriterArrivesBeforeStampAcquired.
    run_with H1. run_with H2. run_with H3. run_with H4. done.
Qed.

Lemma sequential_tests_from_any_quiescent_state_witness :
  mut (rw (memory_at Unlocked (MaxUint64 - 1) [5])) = Unlocked /\
  Z.even (sequence (rw (memory_at Unlocked (MaxUint64 - 1) [5]))) = true /\
  (exists w', TwoReadersHappy (memory_at Unlocked (MaxUint64 - 1) [5]) = Ret (true, true) w') /\
  (exists w', WriterArrivesAfterStampAcquired (memory_at Unlocked (MaxUint64 - 1) [5])
              = Ret (false, false) w') /\
  (exists w', WriterArrivesBeforeStampAcquired (memory_at Unlocked (MaxUint64 - 1) [5])
              = Ret (false, false) w').
Proof.
  split; [reflexivity |]. split; [reflexivity |].
  apply (sequential_tests_from_any_quiescent_state (memory_at Unlocked (MaxUint64 - 1) [5]));
    reflexivity.
Defined.

(** X15.  The two stress tests pass under every schedule: none of the ten
    calls of [HammerRWMutex] in [TestRWMutex], and none of the ten in
    [TestRWMutex_SequenceWrapAround], where the sequence starts 252 (or 2)
    below [2^64] and wraps, panics, with and without [-short]. *)
Theorem stress_tests_pass (short : bool) (schedule_of : nat -> list nat) :
  Forall is_running (TestRWMutex short schedule_of) /\
  Forall is_running (TestRWMutex_SequenceWrapAround short schedule_of).
Proof.
  assert (H : forall g r n s sch,
             is_uint64 s -> Z.even s = true -> 4 * Z.max 0 n < 2 ^ 64 ->
             is_running (HammerRWMutex g r n s sch)).
  { intros g r n s sch Hr He Hb.
    destruct (HammerRWMutex_inv g r n s sch Hr He Hb) as (c & -> & _). done. }
  assert (Hu : forall s, 0 <= s < 2 ^ 64 -> is_uint64 s) by (intros s Hs; exact Hs).
  unfold TestRWMutex, TestRWMutex_SequenceWrapAround, hammer_calls, MaxUint64, two64.
  split; destruct short; cbn [imap fst snd]; repeat apply Forall_cons_2;
    try apply Forall_nil_2; apply H; try reflexivity; apply Hu; lia.
Qed.
